(** * getbox: the dependency-injection container of [src/index.ts]

    The container [Box] keeps a JavaScript [Map] from producers
    ([Constructor] values, compared by reference) to instances.  The
    development embeds the class [Box], the helper class [Construct] and
    the functions [factory] and [constant] in a state-and-exception monad
    over a small JavaScript store, and proves the properties of the
    specification about them.

    The creation logic of a producer is client code: it is represented by
    an arbitrary computation of that monad, which may allocate, update
    objects, throw, and call the container back.  Such a computation
    always ends; logic that loops (a cycle of dependencies) has no
    counterpart here. *)

From stdpp Require Import base option list gmap strings.
From Stdlib Require Import ZArith Lia.

Local Open Scope Z_scope.
Local Open Scope nat_scope.

(** ** The store *)

(** References: every JavaScript object (a producer, a container, an
    instance) lives at an address, and [===] on objects compares
    addresses. *)
Abbreviation loc := nat (only parsing).

Inductive Value : Type :=
  | VUndefined
  | VNumber (n : Z)
  | VString (s : string)
  | VObject (l : loc).

Global Instance Value_eq_dec : EqDecision Value.
Proof. solve_decision. Defined.

(** The part of the heap the container can reach: the allocation pointer,
    the [cache] field of every [Box] object, and the fields of plain
    objects (in declaration order). *)
Record World : Type := mkWorld {
  next_loc : loc;
  boxes : gmap nat (gmap nat Value);
  objects : gmap nat (list Value)
}.

(** Result of evaluating an expression: a value, or a thrown exception. *)
Inductive Outcome (A : Type) : Type :=
  | Ok (a : A)
  | Thrown (e : Value).
Arguments Ok {A} a.
Arguments Thrown {A} e.

(** Computations: the store is threaded through, and survives a throw. *)
Definition M (A : Type) : Type := World → Outcome A * World.

Global Instance M_ret : MRet M := λ A a w, (Ok a, w).

Global Instance M_bind : MBind M := λ A B k m w,
  match m w with
  | (Ok a, w') => k a w'
  | (Thrown e, w') => (Thrown e, w')
  end.

Definition throw {A} (e : Value) : M A := λ w, (Thrown e, w).

Definition TypeError : Value := VString "TypeError".

(** Allocation of a new object address. *)
Definition alloc : M loc := λ w,
  (Ok (next_loc w),
   {| next_loc := S (next_loc w); boxes := boxes w; objects := objects w |}).

(** Fields of plain objects. *)
Definition get_fields (l : loc) : M (list Value) := λ w,
  (Ok (default [] (objects w !! l)), w).

Definition set_fields (l : loc) (fs : list Value) : M unit := λ w,
  (Ok tt,
   {| next_loc := next_loc w; boxes := boxes w;
      objects := <[l := fs]> (objects w) |}).

(** *** The [Map] held in [Box.cache] *)

Definition cache_of (w : World) (b : loc) : gmap nat Value :=
  default ∅ (boxes w !! b).

Definition set_cache (w : World) (b k : loc) (v : Value) : World :=
  {| next_loc := next_loc w;
     boxes := <[b := <[k := v]> (cache_of w b)]> (boxes w);
     objects := objects w |}.

(** [box.cache.has(k)] *)
Definition cache_has (b k : loc) : M bool := λ w,
  (Ok (bool_decide (is_Some (cache_of w b !! k))), w).

(** [box.cache.get(k)] *)
Definition cache_get (b k : loc) : M Value := λ w,
  (Ok (default VUndefined (cache_of w b !! k)), w).

(** [box.cache.set(k, v)] *)
Definition cache_set (b k : loc) (v : Value) : M unit := λ w,
  (Ok tt, set_cache w b k v).

(** ** Producers and classes *)

(** A class with a constructor taking arguments: the body runs on the
    freshly allocated [this] and yields what the constructor returns,
    [undefined] when it has no [return] statement. *)
Definition ClassConstructor : Type := loc → list Value → M Value.

(** The value of a [new] expression: the object the constructor returned
    if it returned one, and [this] otherwise. *)
Definition construct_result (this : loc) (returned : Value) : Value :=
  match returned with
  | VObject o => VObject o
  | _ => VObject this
  end.

(** [new C(...args)] *)
Definition js_new (C : ClassConstructor) (args : list Value) : M Value :=
  this ← alloc;
  returned ← C this args;
  mret (construct_result this returned).

(** [type Constructor<T> = { init(box: Box): T } | { new (): T }].
    [ident] is the address of the producer object itself, the key under
    which the [Map] files it; [init] is its [init] member when it has one;
    [class] is its constructor when it is a class. *)
Record Constructor : Type := mkConstructor {
  ident : loc;
  init : option (loc → M Value);
  class : option ClassConstructor
}.

(** [export function factory<T>(init)]: a new object [{ init }]. *)
Definition factory (init : loc → M Value) : M Constructor :=
  l ← alloc;
  mret {| ident := l; init := Some init; class := None |}.

(** [export function constant<const T>(value)]: a new object
    [{ init: () => value }]. *)
Definition constant (value : Value) : M Constructor :=
  l ← alloc;
  mret {| ident := l; init := Some (λ _, mret value); class := None |}.

(** ** [class Box] *)

(** [new Box()]: a new object whose [cache] is an empty [Map]. *)
Definition Box_create : M loc := λ w,
  (Ok (next_loc w),
   {| next_loc := S (next_loc w);
      boxes := <[next_loc w := ∅]> (boxes w);
      objects := objects w |}).

(** [public new<T>(constructor)].  A producer that has neither an [init]
    member nor a constructor makes [new constructor()] throw a
    [TypeError]. *)
Definition Box_new (this : loc) (constructor : Constructor) : M Value :=
  match init constructor with
  | Some init => init this
  | None =>
      match class constructor with
      | Some C => js_new C []
      | None => throw TypeError
      end
  end.

(** [public get<T>(constructor)] *)
Definition Box_get (this : loc) (constructor : Constructor) : M Value :=
  hit ← cache_has this (ident constructor);
  if hit : bool then cache_get this (ident constructor)
  else
    value ← Box_new this constructor;
    cache_set this (ident constructor) value;;
    mret value.

(** [public static mock(box, constructor, value)] *)
Definition Box_mock (box : loc) (constructor : Constructor) (value : Value)
  : M unit :=
  cache_set box (ident constructor) value.

(** ** [class Construct] *)

Record Construct : Type := mkConstruct {
  box : loc;
  construct : ClassConstructor
}.

(** [public for(constructor)].  The builder is a pair of two fields that
    are never written again; its own address plays no part. *)
Definition Box_for (this : loc) (constructor : ClassConstructor) : Construct :=
  {| box := this; construct := constructor |}.

(** [public new(...args)] *)
Definition Construct_new (this : Construct) (args : list Constructor)
  : M Value :=
  instances ← mapM (λ arg, Box_new (box this) arg) args;
  js_new (construct this) instances.

(** [public get(...args)] *)
Definition Construct_get (this : Construct) (args : list Constructor)
  : M Value :=
  instances ← mapM (λ arg, Box_get (box this) arg) args;
  js_new (construct this) instances.

(** ** What a computation leaves in place

    [Keeps R m]: whatever the outcome of [m], the store it leaves is
    related by [R] to the store it started from.  The relations used are
    preorders, so they compose along a run. *)

Definition Keeps (R : relation World) {A} (m : M A) : Prop :=
  ∀ w, R w (m w).2.

(** The allocation pointer only moves forward. *)
Definition alloc_le : relation World := λ w w', next_loc w ≤ next_loc w'.

(** No key leaves a cache. *)
Definition keys_kept : relation World := λ w w',
  ∀ b k, is_Some (cache_of w b !! k) → is_Some (cache_of w' b !! k).

(** The entry of key [k] in container [b], if any, is still the same. *)
Definition pinned (b k : loc) : relation World := λ w w',
  ∀ v, cache_of w b !! k = Some v → cache_of w' b !! k = Some v.

(** Every entry of every cache is still the same. *)
Definition entries_kept : relation World := λ w w', ∀ b k, pinned b k w w'.

(** No cache is touched at all. *)
Definition same_boxes : relation World := λ w w', boxes w = boxes w'.

(** Only plain objects were allocated or updated. *)
Definition objects_only : relation World := λ w w',
  next_loc w ≤ next_loc w' ∧ boxes w = boxes w'.

(** ** Resolving a list of producers in order

    [resolved f args w vs w']: applying [f] to the producers of [args]
    from left to right, each in the store left by the previous one, yields
    the values [vs], position by position, and the store [w']. *)
Inductive resolved (f : Constructor → M Value)
  : list Constructor → World → list Value → World → Prop :=
  | resolved_nil w : resolved f [] w [] w
  | resolved_cons p ps w v w1 vs w2 :
      f p w = (Ok v, w1) →
      resolved f ps w1 vs w2 →
      resolved f (p :: ps) w (v :: vs) w2.

(** A value that exists in a store: an object must have been allocated. *)
Definition allocated (w : World) (v : Value) : Prop :=
  match v with
  | VObject l => l < next_loc w
  | _ => True
  end.

(** A store whose caches are keyed by allocated objects only. *)
Definition keys_allocated (w : World) : Prop :=
  ∀ b k, is_Some (cache_of w b !! k) → k < next_loc w.

(** [m] behaves the same whatever the entry of key [k] in container [b]
    is: it neither reads nor writes it. *)
Definition ignores_entry (b k : loc) {A} (m : M A) : Prop :=
  ∀ w x, m (set_cache w b k x) = ((m w).1, set_cache (m w).2 b k x).

(** The constructor of [C], called with [args], returns no object other
    than [this] (the usual case: no [return] statement at all), so that
    [new C(...args)] is the new object. *)
Definition returns_own (C : ClassConstructor) (args : list Value) : Prop :=
  ∀ o w r w', C o args w = (Ok r, w') → ∀ l, r = VObject l → l = o.

(** [m] is creation logic that is not constant: the value it returns is
    an object allocated during that very run. *)
Definition creates_fresh (m : M Value) : Prop :=
  ∀ w v w', m w = (Ok v, w') → ∃ l, v = VObject l ∧ next_loc w ≤ l < next_loc w'.

(** ** Sequences of container operations

    A client of one or several containers: a sequence of calls of the
    public operations.  The caller goes on to the next call whether the
    previous one returned or threw. *)
Inductive Op : Type :=
  | OpNew (b : loc) (c : Constructor)
  | OpGet (b : loc) (c : Constructor)
  | OpMock (b : loc) (c : Constructor) (v : Value)
  | OpForNew (b : loc) (T : ClassConstructor) (args : list Constructor)
  | OpForGet (b : loc) (T : ClassConstructor) (args : list Constructor).

Definition run_op (o : Op) : M Value :=
  match o with
  | OpNew b c => Box_new b c
  | OpGet b c => Box_get b c
  | OpMock b c v => Box_mock b c v;; mret VUndefined
  | OpForNew b T args => Construct_new (Box_for b T) args
  | OpForGet b T args => Construct_get (Box_for b T) args
  end.

Fixpoint run_ops (os : list Op) (w : World) : World :=
  match os with
  | [] => w
  | o :: os => run_ops os (run_op o w).2
  end.

(** The creation logic that an operation may run keeps [R]. *)
Definition producers_keep (R : relation World) (o : Op) : Prop :=
  match o with
  | OpNew b c | OpGet b c => Keeps R (Box_new b c)
  | OpMock _ _ _ => True
  | OpForNew b T args | OpForGet b T args =>
      Forall (λ p, Keeps R (Box_new b p)) args ∧ ∀ vs, Keeps R (js_new T vs)
  end.

(** The operation is an override of key [k] in container [b]. *)
Definition is_mock_of (b k : loc) (o : Op) : Prop :=
  match o with
  | OpMock b' c _ => b' = b ∧ ident c = k
  | _ => False
  end.

(** The permanence of cache entries, read literally: once [P] has the
    entry [v] in container [b], [Box.get(P)] returns [v] after any
    sequence of operations (whose producers replace no entry on their
    own). *)
Definition cache_entry_permanent : Prop :=
  ∀ b P w v ops,
    cache_of w b !! ident P = Some v →
    Forall (producers_keep entries_kept) ops →
    Box_get b P (run_ops ops w) = (Ok v, run_ops ops w).

(** The freshness of the builder's dependencies, read literally: a
    dependency resolved by [Box.for(T).new] is never the instance that the
    container has in its cache for the same producer. *)
Definition new_dependency_never_cached_instance : Prop :=
  ∀ this ps w vs w1 i p v x,
    Forall (λ p, Keeps alloc_le (Box_new this p)) ps →
    resolved (Box_new this) ps w vs w1 →
    ps !! i = Some p → vs !! i = Some v →
    cache_of w this !! ident p = Some x → allocated w x →
    v ≠ x.


(** [n] successive calls of [Box.get], with the list of their results. *)
Definition Box_get_times (n : nat) (this : loc) (c : Constructor)
  : M (list Value) :=
  mapM (λ _ : (), Box_get this c) (replicate n ()).

(** ** Sample producers and stores *)

Definition empty_world : World :=
  {| next_loc := 0; boxes := ∅; objects := ∅ |}.

(** [class C { constructor(public a, public b, ...) {} }] *)
Definition plain_class : ClassConstructor :=
  λ this args, set_fields this args;; mret VUndefined.

(** [counter.n += 1] on the object at [ctr] *)
Definition bump (ctr : loc) : M unit :=
  fs ← get_fields ctr;
  match fs with
  | VNumber n :: _ => set_fields ctr [VNumber (n + 1)]
  | _ => set_fields ctr [VNumber 1]
  end.

(** A class whose constructor counts its own runs in [ctr]. *)
Definition counting_class (ctr : loc) : ClassConstructor :=
  λ this args, bump ctr;; set_fields this args;; mret VUndefined.

(** A class whose constructor throws. *)
Definition failing_class : ClassConstructor :=
  λ this args, throw (VString "boom").

(** [class C { constructor() { return shared; } }], for the object
    [shared] at address [l]. *)
Definition returning_class (l : loc) : ClassConstructor :=
  λ this args, mret (VObject l).

(** A store with one container at address 0 (empty cache), and a counter
    object at address 2; addresses 1, 3, 4, 5 and 6 hold producer
    objects. *)
Definition world0 : World :=
  {| next_loc := 7; boxes := {[ 0 := ∅ ]}; objects := {[ 2 := [VNumber 0] ]} |}.

(** A class producer, counting its constructions. *)
Definition Printer : Constructor :=
  {| ident := 1; init := None; class := Some (counting_class 2) |}.

(** A class with a static [init] that counts, and a constructor that
    throws. *)
Definition Office : Constructor :=
  {| ident := 3;
     init := Some (λ box, bump 2;; js_new plain_class [VString "from init"]);
     class := Some failing_class |}.

(** A class whose constructor throws. *)
Definition Broken : Constructor :=
  {| ident := 4; init := None; class := Some failing_class |}.

(** A factory that throws on its first run, when the counter is still 0,
    and builds an object on the later ones. *)
Definition Flaky : Constructor :=
  {| ident := 5;
     init := Some (λ box,
       fs ← get_fields 2;
       match fs with
       | VNumber 0 :: _ => bump 2;; throw (VString "boom")
       | _ => js_new plain_class []
       end);
     class := None |}.

(** A class with a static [init] that asks the container for its
    dependency:
    [static init(box) { return new Desk(box.get(Printer)); }] *)
Definition Desk : Constructor :=
  {| ident := 6;
     init := Some (λ box, printer ← Box_get box Printer;
                          js_new plain_class [printer]);
     class := Some failing_class |}.

(** What the creation logic of a producer is, and that it throws [e]
    leaving the store [w1]: the [init] member called with the container,
    or else the class constructor run on the newly allocated object. *)
Definition creation_raises (this : loc) (P : Constructor) (w : World)
    (e : Value) (w1 : World) : Prop :=
  match init P, class P with
  | Some f, _ => f this w = (Thrown e, w1)
  | None, Some C => C (next_loc w) [] (alloc w).2 = (Thrown e, w1)
  | None, None => False
  end.

(** The usual shape of a dependent producer,
    [static init(box) { return k(box.get(S)); }]: it asks the container
    for the shared instance of [S] and builds its own instance from it. *)
Definition depends_on (S : Constructor) (k : Value → M Value)
  : loc → M Value :=
  λ box, s ← Box_get box S; k s.

(** * Proofs *)

(** ** Running computations *)

Lemma bind_run {A B} (m : M A) (k : A → M B) w :
  (m ≫= k) w =
  match m w with
  | (Ok a, w') => k a w'
  | (Thrown e, w') => (Thrown e, w')
  end.
Proof. reflexivity. Qed.

Lemma bind_ok {A B} (m : M A) (k : A → M B) w a w' :
  m w = (Ok a, w') → (m ≫= k) w = k a w'.
Proof. intros H. by rewrite bind_run, H. Qed.

Lemma bind_thrown {A B} (m : M A) (k : A → M B) w e w' :
  m w = (Thrown e, w') → (m ≫= k) w = (Thrown e, w').
Proof. intros H. by rewrite bind_run, H. Qed.

Lemma bind_ok_inv {A B} (m : M A) (k : A → M B) w b w2 :
  (m ≫= k) w = (Ok b, w2) → ∃ a w1, m w = (Ok a, w1) ∧ k a w1 = (Ok b, w2).
Proof.
  rewrite bind_run. destruct (m w) as [[a|e] w1]; [eauto | discriminate].
Qed.

(** ** The cache after a write *)

Lemma cache_of_set_cache w b k v b' :
  cache_of (set_cache w b k v) b' =
  if decide (b = b') then <[k := v]> (cache_of w b) else cache_of w b'.
Proof.
  unfold cache_of at 1, set_cache; simpl.
  rewrite lookup_insert. by destruct (decide (b = b')).
Qed.

Lemma lookup_set_cache_eq w b k v :
  cache_of (set_cache w b k v) b !! k = Some v.
Proof.
  rewrite cache_of_set_cache, decide_True by done. apply lookup_insert_eq.
Qed.

Lemma lookup_set_cache_ne w b k v b' k' :
  (b, k) ≠ (b', k') →
  cache_of (set_cache w b k v) b' !! k' = cache_of w b' !! k'.
Proof.
  intros Hne. rewrite cache_of_set_cache.
  destruct (decide (b = b')) as [->|]; [|done].
  apply lookup_insert_ne. congruence.
Qed.

Lemma lookup_set_cache_is_Some w b k v b' k' :
  is_Some (cache_of w b' !! k') →
  is_Some (cache_of (set_cache w b k v) b' !! k').
Proof.
  intros Hs. destruct (decide ((b, k) = (b', k'))) as [[= -> ->]|Hne].
  - rewrite lookup_set_cache_eq. eauto.
  - by rewrite lookup_set_cache_ne.
Qed.

(** ** The three ways [Box.get] can go *)

Lemma Box_get_hit this c w v :
  cache_of w this !! ident c = Some v →
  Box_get this c w = (Ok v, w).
Proof.
  intros Hv. unfold Box_get. rewrite bind_run. unfold cache_has, cache_get.
  rewrite bool_decide_eq_true_2 by (rewrite Hv; eauto). by rewrite Hv.
Qed.

Lemma Box_get_miss this c w :
  cache_of w this !! ident c = None →
  Box_get this c w =
  match Box_new this c w with
  | (Ok v, w1) => (Ok v, set_cache w1 this (ident c) v)
  | (Thrown e, w1) => (Thrown e, w1)
  end.
Proof.
  intros Hv. unfold Box_get. rewrite bind_run. unfold cache_has at 1.
  rewrite bool_decide_eq_false_2 by (rewrite Hv; intros [? ?]; discriminate).
  rewrite bind_run. by destruct (Box_new this c w) as [[v|e] w1].
Qed.

Lemma Box_get_cases this c w :
  (∃ v, cache_of w this !! ident c = Some v ∧ Box_get this c w = (Ok v, w)) ∨
  (cache_of w this !! ident c = None ∧
   ∃ v w1, Box_new this c w = (Ok v, w1) ∧
           Box_get this c w = (Ok v, set_cache w1 this (ident c) v)) ∨
  (cache_of w this !! ident c = None ∧
   ∃ e w1, Box_new this c w = (Thrown e, w1) ∧
           Box_get this c w = (Thrown e, w1)).
Proof.
  destruct (cache_of w this !! ident c) as [v|] eqn:Hv.
  - left. eauto using Box_get_hit.
  - right. rewrite (Box_get_miss _ _ _ Hv).
    destruct (Box_new this c w) as [[v|e] w1]; [left | right]; eauto.
Qed.

Global Instance alloc_le_preorder : PreOrder alloc_le.
Proof. split; unfold alloc_le; [intros ?; lia | intros ???; lia]. Qed.

Global Instance keys_kept_preorder : PreOrder keys_kept.
Proof. split; unfold keys_kept; [intros ?; auto | intros ??? H1 H2; auto]. Qed.

Global Instance pinned_preorder b k : PreOrder (pinned b k).
Proof. split; unfold pinned; [intros ?; auto | intros ??? H1 H2; auto]. Qed.

Global Instance entries_kept_preorder : PreOrder entries_kept.
Proof.
  split; unfold entries_kept.
  - intros w b k. reflexivity.
  - intros w1 w2 w3 H1 H2 b k. etrans; [apply H1 | apply H2].
Qed.

Global Instance same_boxes_preorder : PreOrder same_boxes.
Proof. split; unfold same_boxes; [intros ?; auto | intros ???; congruence]. Qed.

Lemma same_boxes_cache_of w w' b : same_boxes w w' → cache_of w b = cache_of w' b.
Proof. unfold same_boxes, cache_of. by intros ->. Qed.

Section keeps.
Context (R : relation World) `{!PreOrder R}.

Lemma keeps_ret {A} (a : A) : Keeps R (mret a : M A).
Proof. intros w. reflexivity. Qed.

Lemma keeps_throw {A} e : Keeps R (throw e : M A).
Proof. intros w. reflexivity. Qed.

Lemma keeps_bind {A B} (m : M A) (k : A → M B) :
  Keeps R m → (∀ a, Keeps R (k a)) → Keeps R (m ≫= k).
Proof.
  intros Hm Hk w. rewrite bind_run. specialize (Hm w).
  destruct (m w) as [[a|e] w1]; simpl in *; [|done].
  etrans; [exact Hm | apply Hk].
Qed.

Lemma keeps_mapM {A B} (f : A → M B) (l : list A) :
  Forall (λ x, Keeps R (f x)) l → Keeps R (mapM f l).
Proof.
  induction 1 as [|x l Hx _ IH]; simpl.
  - apply keeps_ret.
  - apply keeps_bind; [done|]. intros y.
    apply keeps_bind; [done|]. intros ys. apply keeps_ret.
Qed.

(** Allocation is harmless for every relation considered here. *)
Hypothesis R_alloc : Keeps R alloc.

Lemma keeps_js_new (C : ClassConstructor) args :
  (∀ this, Keeps R (C this args)) → Keeps R (js_new C args).
Proof.
  intros HC. unfold js_new. apply keeps_bind; [done|]. intros this.
  apply keeps_bind; [done|]. intros returned. apply keeps_ret.
Qed.

(** [Box.new] adds nothing of its own to what the producer does. *)
Lemma keeps_Box_new this c :
  (∀ f, init c = Some f → Keeps R (f this)) →
  (∀ C, init c = None → class c = Some C → ∀ o, Keeps R (C o [])) →
  Keeps R (Box_new this c).
Proof.
  intros Hi Hc. unfold Box_new.
  destruct (init c) as [f|]; [by apply Hi|].
  destruct (class c) as [C|]; [|apply keeps_throw].
  apply keeps_js_new. by apply Hc.
Qed.

Lemma keeps_Construct_new this args :
  Forall (λ arg, Keeps R (Box_new (box this) arg)) args →
  (∀ vs, Keeps R (js_new (construct this) vs)) →
  Keeps R (Construct_new this args).
Proof.
  intros Hargs HC. unfold Construct_new.
  apply keeps_bind; [by apply keeps_mapM | done].
Qed.

(** For [Box.get], [Box.mock] and [Construct.get] the relation must
    also tolerate a cache write. *)
Hypothesis R_set : ∀ b k v, Keeps R (cache_set b k v).

Lemma keeps_Box_mock b c v : Keeps R (Box_mock b c v).
Proof. apply R_set. Qed.

Lemma keeps_Box_get this c :
  Keeps R (Box_new this c) → Keeps R (Box_get this c).
Proof.
  intros Hn w.
  destruct (Box_get_cases this c w)
    as [(v & _ & ->)|[(_ & v & w1 & Hw1 & ->)|(_ & e & w1 & Hw1 & ->)]];
    simpl.
  - reflexivity.
  - specialize (Hn w). rewrite Hw1 in Hn. simpl in Hn.
    etrans; [exact Hn|]. apply (R_set this (ident c) v w1).
  - specialize (Hn w). by rewrite Hw1 in Hn.
Qed.

Lemma keeps_Construct_get this args :
  Forall (λ arg, Keeps R (Box_new (box this) arg)) args →
  (∀ vs, Keeps R (js_new (construct this) vs)) →
  Keeps R (Construct_get this args).
Proof.
  intros Hargs HC. unfold Construct_get.
  apply keeps_bind; [|done]. apply keeps_mapM.
  eapply Forall_impl; [exact Hargs|]. intros c Hc. by apply keeps_Box_get.
Qed.
End keeps.

Lemma alloc_keeps_alloc_le : Keeps alloc_le alloc.
Proof. intros w. unfold alloc_le, alloc; simpl. lia. Qed.

Lemma alloc_keeps_same_boxes : Keeps same_boxes alloc.
Proof. intros w. reflexivity. Qed.

Lemma alloc_keeps_pinned b k : Keeps (pinned b k) alloc.
Proof. intros w v Hv. exact Hv. Qed.

Lemma alloc_keeps_entries_kept : Keeps entries_kept alloc.
Proof. intros w b k. apply alloc_keeps_pinned. Qed.

Lemma alloc_keeps_keys_kept : Keeps keys_kept alloc.
Proof. intros w b k Hs. exact Hs. Qed.

Lemma cache_set_keeps_alloc_le b k v : Keeps alloc_le (cache_set b k v).
Proof. intros w. unfold alloc_le; simpl. lia. Qed.

Lemma cache_set_keeps_keys_kept b k v : Keeps keys_kept (cache_set b k v).
Proof. intros w b' k' Hs. simpl. by apply lookup_set_cache_is_Some. Qed.

Lemma cache_set_keeps_pinned b k v b' k' :
  (b, k) ≠ (b', k') → Keeps (pinned b' k') (cache_set b k v).
Proof. intros Hne w x Hx. simpl. by rewrite lookup_set_cache_ne. Qed.

Lemma entries_kept_keys_kept w w' : entries_kept w w' → keys_kept w w'.
Proof. intros H b k [v Hv]. exists v. by apply H. Qed.

(** [Box.get] writes an entry only for a key that had none when it was
    called, so it replaces nothing, as long as the producer it runs
    replaces nothing either. *)
Lemma keeps_pinned_Box_get this c b k :
  Keeps (pinned b k) (Box_new this c) → Keeps (pinned b k) (Box_get this c).
Proof.
  intros Hn w.
  destruct (Box_get_cases this c w)
    as [(v & _ & ->)|[(Hmiss & v & w1 & Hw1 & ->)|(_ & e & w1 & Hw1 & ->)]];
    simpl.
  - reflexivity.
  - specialize (Hn w). rewrite Hw1 in Hn. simpl in Hn. intros x Hx.
    destruct (decide ((this, ident c) = (b, k))) as [[= <- <-]|Hne].
    + congruence.
    + rewrite lookup_set_cache_ne by done. by apply Hn.
  - specialize (Hn w). by rewrite Hw1 in Hn.
Qed.

Lemma keeps_entries_kept_Box_get this c :
  Keeps entries_kept (Box_new this c) → Keeps entries_kept (Box_get this c).
Proof.
  intros Hn w b k. apply keeps_pinned_Box_get. intros u. apply Hn.
Qed.

Lemma keeps_pinned_Construct_get this args b k :
  Forall (λ arg, Keeps (pinned b k) (Box_new (box this) arg)) args →
  (∀ vs, Keeps (pinned b k) (js_new (construct this) vs)) →
  Keeps (pinned b k) (Construct_get this args).
Proof.
  intros Hargs HC. unfold Construct_get.
  apply keeps_bind; [apply _| |done]. apply keeps_mapM; [apply _|].
  eapply Forall_impl; [exact Hargs|]. intros c Hc.
  by apply keeps_pinned_Box_get.
Qed.

(** After a successful [Box.get] the value returned is the cache entry. *)
Lemma Box_get_ok_cached this c w v w' :
  Box_get this c w = (Ok v, w') → cache_of w' this !! ident c = Some v.
Proof.
  intros Hg.
  destruct (Box_get_cases this c w)
    as [(x & Hx & E)|[(_ & x & w1 & _ & E)|(_ & e & w1 & _ & E)]];
    rewrite E in Hg; simplify_eq; [done|].
  apply lookup_set_cache_eq.
Qed.

Lemma mapM_cons_run {A B} (f : A → M B) x l w :
  mapM f (x :: l) w =
  match f x w with
  | (Ok y, w1) =>
      match mapM f l w1 with
      | (Ok ys, w2) => (Ok (y :: ys), w2)
      | (Thrown e, w2) => (Thrown e, w2)
      end
  | (Thrown e, w1) => (Thrown e, w1)
  end.
Proof.
  simpl. rewrite bind_run. destruct (f x w) as [[y|e] w1]; [|done].
  rewrite bind_run. by destruct (mapM f l w1) as [[ys|e] w2].
Qed.

Lemma mapM_resolved (f : Constructor → M Value) ps w vs w' :
  mapM f ps w = (Ok vs, w') ↔ resolved f ps w vs w'.
Proof.
  split.
  - revert w vs. induction ps as [|p ps IH]; intros w vs H.
    + injection H as <- <-. constructor.
    + rewrite mapM_cons_run in H.
      destruct (f p w) as [[v|e] w1] eqn:Hp; [|discriminate].
      destruct (mapM f ps w1) as [[ys|e] w2] eqn:Hps; [|discriminate].
      injection H as <- <-. econstructor; eauto.
  - induction 1 as [|p ps w v w1 vs w2 Hp _ IH]; [done|].
    by rewrite mapM_cons_run, Hp, IH.
Qed.

Lemma resolved_length f ps w vs w' :
  resolved f ps w vs w' → length vs = length ps.
Proof. induction 1; simpl; congruence. Qed.

(** The [i]-th value is what [f] returned for the [i]-th producer, in a
    store reached from the initial one and from which the final one is
    reached. *)
Lemma resolved_lookup (R : relation World) `{!PreOrder R} f ps w vs w' :
  Forall (λ p, Keeps R (f p)) ps →
  resolved f ps w vs w' →
  R w w' ∧
  ∀ i p, ps !! i = Some p →
    ∃ v wa wb, vs !! i = Some v ∧ f p wa = (Ok v, wb) ∧ R w wa ∧ R wb w'.
Proof.
  intros HF Hr. induction Hr as [|p ps w v w1 vs w2 Hp Hr IH].
  - split; [reflexivity|]. intros i p Hi. by destruct i.
  - apply Forall_cons in HF as [Hkp HF]. destruct (IH HF) as [Hw IHl].
    assert (R w w1) as Hww1 by (specialize (Hkp w); by rewrite Hp in Hkp).
    split; [by etrans|]. intros [|i] q Hi; simpl in *.
    + injection Hi as <-. exists v, w, w1. repeat split; [done|reflexivity|done].
    + destruct (IHl i q Hi) as (x & wa & wb & Hx & Hf & Ha & Hb).
      exists x, wa, wb. repeat split; [done..| |done]. by etrans.
Qed.

(** When every producer of the list is already cached, resolving through
    [Box.get] returns the entries and leaves the store alone. *)
Lemma resolved_cached this ps vs w :
  Forall2 (λ p v, cache_of w this !! ident p = Some v) ps vs →
  resolved (Box_get this) ps w vs w.
Proof.
  induction 1 as [|p v ps vs Hp _ IH]; econstructor; [|exact IH].
  by apply Box_get_hit.
Qed.

(** ** What [new] returns *)

Lemma js_new_run (C : ClassConstructor) args w :
  js_new C args w =
  match C (next_loc w) args (alloc w).2 with
  | (Ok returned, w') => (Ok (construct_result (next_loc w) returned), w')
  | (Thrown e, w') => (Thrown e, w')
  end.
Proof.
  unfold js_new. rewrite bind_run. cbn [alloc snd]. rewrite bind_run.
  by destruct (C _ _ _) as [[returned|e] u].
Qed.

Lemma js_new_ok C args w r w' :
  js_new C args w = (Ok r, w') →
  ∃ returned,
    C (next_loc w) args (alloc w).2 = (Ok returned, w') ∧
    r = construct_result (next_loc w) returned.
Proof.
  rewrite js_new_run.
  destruct (C _ _ _) as [[returned|e] w1]; [|discriminate].
  intros [= <- <-]. eauto.
Qed.

(** A successful [new] has allocated. *)
Lemma js_new_alloc C args w r w' :
  (∀ o, Keeps alloc_le (C o args)) →
  js_new C args w = (Ok r, w') →
  next_loc w < next_loc w'.
Proof.
  intros HC Hn. apply js_new_ok in Hn as (returned & Hb & _).
  specialize (HC (next_loc w) (alloc w).2). rewrite Hb in HC.
  unfold alloc_le in HC. simpl in HC. lia.
Qed.

(** When the constructor returns no object of its own, [new] yields the
    object it has allocated. *)
Lemma js_new_own C args w r w' :
  returns_own C args →
  js_new C args w = (Ok r, w') →
  r = VObject (next_loc w).
Proof.
  intros Hown Hn. apply js_new_ok in Hn as (returned & Hb & ->).
  destruct returned as [| | |l]; try done.
  simpl. by rewrite (Hown _ _ _ _ Hb l eq_refl).
Qed.

Lemma js_new_fresh C args w r w' :
  returns_own C args →
  (∀ o, Keeps alloc_le (C o args)) →
  js_new C args w = (Ok r, w') →
  r = VObject (next_loc w) ∧ next_loc w < next_loc w'.
Proof.
  intros Hown HC Hn. split; [by eapply js_new_own | by eapply js_new_alloc].
Qed.

Lemma Box_get_times_cached this c u x n :
  cache_of u this !! ident c = Some x →
  Box_get_times n this c u = (Ok (replicate n x), u).
Proof.
  intros Hx. unfold Box_get_times. induction n as [|n IH]; [done|].
  cbn [replicate]. by rewrite mapM_cons_run, (Box_get_hit _ _ _ _ Hx), IH.
Qed.

(** ** Computations that work on plain objects only *)

Global Instance objects_only_preorder : PreOrder objects_only.
Proof.
  split; unfold objects_only.
  - intros w. split; [lia | done].
  - intros w1 w2 w3 [? ?] [? ?]. split; [lia | congruence].
Qed.

Lemma keeps_weaken (R R' : relation World) {A} (m : M A) :
  (∀ w w', R w w' → R' w w') → Keeps R m → Keeps R' m.
Proof. intros HR Hm w. apply HR, Hm. Qed.

Lemma objects_only_alloc_le w w' : objects_only w w' → alloc_le w w'.
Proof. by intros [? _]. Qed.

Lemma objects_only_same_boxes w w' : objects_only w w' → same_boxes w w'.
Proof. by intros [_ ?]. Qed.

Lemma same_boxes_entries_kept w w' : same_boxes w w' → entries_kept w w'.
Proof. intros H b k v. by rewrite (same_boxes_cache_of _ _ _ H). Qed.

Lemma objects_only_entries_kept w w' : objects_only w w' → entries_kept w w'.
Proof. intros H. by apply same_boxes_entries_kept, objects_only_same_boxes. Qed.

Lemma objects_only_pinned b k w w' : objects_only w w' → pinned b k w w'.
Proof. intros H. by apply objects_only_entries_kept. Qed.

Lemma objects_only_keys_kept w w' : objects_only w w' → keys_kept w w'.
Proof. intros H. by apply entries_kept_keys_kept, objects_only_entries_kept. Qed.

Lemma alloc_objects_only : Keeps objects_only alloc.
Proof. intros w. split; simpl; [lia | done]. Qed.

Lemma get_fields_objects_only l : Keeps objects_only (get_fields l).
Proof. intros w. reflexivity. Qed.

Lemma set_fields_objects_only l fs : Keeps objects_only (set_fields l fs).
Proof. intros w. split; simpl; [lia | done]. Qed.

Lemma bump_objects_only ctr : Keeps objects_only (bump ctr).
Proof.
  apply keeps_bind; [apply _ | apply get_fields_objects_only |].
  intros [|[] ?]; apply set_fields_objects_only.
Qed.

Lemma plain_class_objects_only o vs : Keeps objects_only (plain_class o vs).
Proof.
  apply keeps_bind; [apply _ | apply set_fields_objects_only |].
  intros _. apply keeps_ret, _.
Qed.


Lemma counting_class_returns_own ctr vs : returns_own (counting_class ctr) vs.
Proof.
  intros o w r w' Hrun l ->. unfold counting_class in Hrun.
  apply bind_ok_inv in Hrun as (? & w1 & _ & Hrun).
  apply bind_ok_inv in Hrun as (? & w2 & _ & Hrun).
  unfold mret, M_ret in Hrun. discriminate Hrun.
Qed.

Lemma counting_class_objects_only ctr o vs :
  Keeps objects_only (counting_class ctr o vs).
Proof.
  apply keeps_bind; [apply _ | apply bump_objects_only |].
  intros _. apply set_fields_objects_only.
Qed.

Lemma Printer_objects_only this : Keeps objects_only (Box_new this Printer).
Proof.
  apply keeps_js_new; [apply _ | apply alloc_objects_only |].
  intros o. apply counting_class_objects_only.
Qed.

Lemma Office_objects_only this : Keeps objects_only (Box_new this Office).
Proof.
  apply keeps_bind; [apply _ | apply bump_objects_only |]. intros _.
  apply keeps_js_new; [apply _ | apply alloc_objects_only |].
  intros o. apply plain_class_objects_only.
Qed.

Lemma Flaky_objects_only this : Keeps objects_only (Box_new this Flaky).
Proof.
  apply keeps_bind; [apply _ | apply get_fields_objects_only |].
  assert (Keeps objects_only (js_new plain_class [])) as Hnew.
  { apply keeps_js_new; [apply _ | apply alloc_objects_only |].
    intros o. apply plain_class_objects_only. }
  assert (Keeps objects_only (bump 2;; throw (VString "boom") : M Value))
    as Hthrow.
  { apply keeps_bind; [apply _ | apply bump_objects_only |].
    intros _. apply keeps_throw, _. }
  intros [|[|[|p|p]|s|l] ?]; done.
Qed.

(** [Desk] caches its dependency through [Box.get]: it writes the cache,
    but replaces no entry and allocates forward. *)
Lemma Desk_entries_kept this : Keeps entries_kept (Box_new this Desk).
Proof.
  apply keeps_bind; [apply _ | |].
  - apply keeps_entries_kept_Box_get. eapply keeps_weaken;
      [apply objects_only_entries_kept | apply Printer_objects_only].
  - intros printer.
    apply keeps_js_new; [apply _ | apply alloc_keeps_entries_kept |].
    intros o. eapply keeps_weaken;
      [apply objects_only_entries_kept | apply plain_class_objects_only].
Qed.

Lemma samples_keep (R : relation World) this :
  (∀ w w', objects_only w w' → R w w') →
  Forall (λ p, Keeps R (Box_new this p)) [Printer; Office].
Proof.
  intros HR. apply Forall_cons_2; [|apply Forall_cons_2; [|apply Forall_nil_2]].
  - eapply keeps_weaken; [exact HR | apply Printer_objects_only].
  - eapply keeps_weaken; [exact HR | apply Office_objects_only].
Qed.

Lemma plain_class_keeps (R : relation World) o vs :
  (∀ w w', objects_only w w' → R w w') → Keeps R (plain_class o vs).
Proof.
  intros HR. eapply keeps_weaken; [exact HR | apply plain_class_objects_only].
Qed.

(** ** Operations one after the other *)

Lemma run_ops_keeps (R : relation World) `{!PreOrder R} ops w :
  Forall (λ o, Keeps R (run_op o)) ops → R w (run_ops ops w).
Proof.
  intros Hops. revert w.
  induction Hops as [|o ops Ho _ IH]; intros w; simpl; [reflexivity|].
  etrans; [apply Ho | apply IH].
Qed.

(** No operation removes a key from a cache. *)
Lemma run_op_keys_kept o :
  producers_keep keys_kept o → Keeps keys_kept (run_op o).
Proof.
  destruct o as [b c|b c|b c v|b T args|b T args]; simpl.
  - done.
  - apply keeps_Box_get; [apply _ | apply cache_set_keeps_keys_kept].
  - intros _. apply keeps_bind; [apply _ | apply cache_set_keeps_keys_kept |].
    intros _. apply keeps_ret, _.
  - intros [Hargs HT]. by apply keeps_Construct_new; [apply _ | |].
  - intros [Hargs HT].
    by apply keeps_Construct_get;
      [apply _ | apply cache_set_keeps_keys_kept | |].
Qed.

(** No operation other than an override of that very key replaces an
    entry. *)
Lemma run_op_pinned b k o :
  producers_keep (pinned b k) o → ¬ is_mock_of b k o →
  Keeps (pinned b k) (run_op o).
Proof.
  destruct o as [b' c|b' c|b' c v|b' T args|b' T args]; simpl.
  - done.
  - intros Hc _. by apply keeps_pinned_Box_get.
  - intros _ Hne. apply keeps_bind; [apply _ | |].
    + apply cache_set_keeps_pinned. intros [= ? ?]. by apply Hne.
    + intros _. apply keeps_ret, _.
  - intros [Hargs HT] _. by apply keeps_Construct_new; [apply _ | |].
  - intros [Hargs HT] _. by apply keeps_pinned_Construct_get.
Qed.

(** ** Computations that do not look at a cache entry *)

Lemma ignores_entry_js_new b k (C : ClassConstructor) args :
  (∀ o, ignores_entry b k (C o args)) → ignores_entry b k (js_new C args).
Proof.
  intros HC w x. rewrite !js_new_run.
  change (alloc (set_cache w b k x)).2 with (set_cache (alloc w).2 b k x).
  change (next_loc (set_cache w b k x)) with (next_loc w).
  rewrite (HC (next_loc w) (alloc w).2 x).
  by destruct (C (next_loc w) args (alloc w).2) as [[returned|e] u].
Qed.

Lemma ignores_entry_Box_new b k this P :
  (∀ f, init P = Some f → ignores_entry b k (f this)) →
  (∀ C, init P = None → class P = Some C → ∀ o, ignores_entry b k (C o [])) →
  ignores_entry b k (Box_new this P).
Proof.
  intros Hi Hc. unfold Box_new.
  destruct (init P) as [f|]; [by apply Hi|].
  destruct (class P) as [C|]; [|done].
  apply ignores_entry_js_new. by apply Hc.
Qed.

Lemma js_new_creates_fresh (C : ClassConstructor) args :
  returns_own C args →
  (∀ o, Keeps alloc_le (C o args)) → creates_fresh (js_new C args).
Proof.
  intros Hown HC w v w' Hn.
  destruct (js_new_fresh _ _ _ _ _ Hown HC Hn) as [-> Hlt].
  exists (next_loc w). split; [done | lia].
Qed.

Lemma creates_fresh_twice (m : M Value) w x y w2 :
  creates_fresh m →
  (a ← m; b ← m; mret (a, b)) w = (Ok (x, y), w2) → x ≠ y.
Proof.
  intros Hm Hrun.
  apply bind_ok_inv in Hrun as (a & w1 & Ha & Hrun).
  apply bind_ok_inv in Hrun as (b & w2' & Hb & Hrun).
  injection Hrun as <- <- <-.
  destruct (Hm _ _ _ Ha) as (la & -> & Hla).
  destruct (Hm _ _ _ Hb) as (lb & -> & Hlb).
  intros [= ->]. lia.
Qed.

(** * Properties of the specification *)

(** C1.  [Box.get] is memoized per producer identity.  Take a container
    [this] whose cache has no entry for [P] (a fresh container in
    particular) and let [P]'s creation logic, run by [Box.new] in the
    store [w], return [v] and leave the store [w1].  Then:
    - the call [Box.get(P)] returns [v] and leaves [w1] with [v] stored
      under [P]'s identity;
    - in every store where the cache has an entry [x] for [P],
      [Box.get(P)] returns [x] and leaves the store exactly as it was, so
      the creation logic is not run again and nothing else happens;
    - two calls in a row return [v] both times and leave the same store as
      the first call alone: the creation logic has run once in total;
    - for every [n ≥ 1], [n] calls in a row all return [v]. *)
Theorem Box_get_memoized this P w v w1 :
  cache_of w this !! ident P = None →
  Box_new this P w = (Ok v, w1) →
  let w' := set_cache w1 this (ident P) v in
  Box_get this P w = (Ok v, w') ∧
  cache_of w' this !! ident P = Some v ∧
  (∀ u x, cache_of u this !! ident P = Some x →
          Box_get this P u = (Ok x, u)) ∧
  (x ← Box_get this P; y ← Box_get this P; mret (x, y)) w = (Ok (v, v), w') ∧
  (∀ n, 1 ≤ n → Box_get_times n this P w = (Ok (replicate n v), w')).
Proof.
  intros Hmiss Hnew w'.
  assert (Box_get this P w = (Ok v, w')) as Hfirst
    by (by rewrite (Box_get_miss _ _ _ Hmiss), Hnew).
  assert (cache_of w' this !! ident P = Some v) as Hstored
    by apply lookup_set_cache_eq.
  assert (Box_get this P w' = (Ok v, w')) as Hsecond
    by (by apply Box_get_hit).
  repeat split; [done..| | |].
  - intros u x. apply Box_get_hit.
  - rewrite (bind_ok _ _ _ _ _ Hfirst). by rewrite (bind_ok _ _ _ _ _ Hsecond).
  - intros [|n] Hn; [lia|]. unfold Box_get_times. cbn [replicate].
    pose proof (Box_get_times_cached this P w' v n Hstored) as Hrest.
    unfold Box_get_times in Hrest. by rewrite mapM_cons_run, Hfirst, Hrest.
Qed.

Lemma Box_get_memoized_witness :
  ∃ w', (x ← Box_get 0 Printer; y ← Box_get 0 Printer; mret (x, y)) world0
        = (Ok (VObject 7, VObject 7), w') ∧
        objects w' !! 2 = Some [VNumber 1].
Proof.
  destruct (Box_get_memoized 0 Printer world0 (VObject 7)
              (Box_new 0 Printer world0).2 eq_refl eq_refl)
    as (_ & _ & _ & H & _).
  eexists. split; [exact H | reflexivity].
Defined.

(** C2.  [Box.mock(box, P, V)] always succeeds and puts [V] in [box]'s
    cache under [P]'s identity, whatever the cache held before, and touches
    no other entry.  From then on [Box.get(P)] returns exactly [V] and
    leaves the store alone: the outcome is the same for every producer
    with [P]'s identity, whatever its creation logic is, so that logic is
    not run.  This holds when the override comes before any [Box.get(P)]
    (the store after override-then-get is the initial store plus the
    entry: no trace of [P]'s logic) and when it comes after [Box.get(P)]
    has cached an instance [v0] (the next [Box.get(P)] returns [V]). *)
Theorem Box_mock_overrides box P V w :
  let w' := set_cache w box (ident P) V in
  Box_mock box P V w = (Ok (), w') ∧
  cache_of w' box !! ident P = Some V ∧
  (∀ b k, (box, ident P) ≠ (b, k) → cache_of w' b !! k = cache_of w b !! k) ∧
  (∀ P', ident P' = ident P → Box_get box P' w' = (Ok V, w')) ∧
  (Box_mock box P V;; Box_get box P) w = (Ok V, w') ∧
  (∀ v0 w1, Box_get box P w = (Ok v0, w1) →
     (Box_get box P;; Box_mock box P V;; Box_get box P) w
     = (Ok V, set_cache w1 box (ident P) V)).
Proof.
  intros w'.
  assert (∀ u, Box_get box P (set_cache u box (ident P) V)
               = (Ok V, set_cache u box (ident P) V)) as Hget
    by (intros u; apply Box_get_hit, lookup_set_cache_eq).
  repeat split.
  - apply lookup_set_cache_eq.
  - intros b k Hne. by apply lookup_set_cache_ne.
  - intros P' HP'. apply Box_get_hit. rewrite HP'. apply lookup_set_cache_eq.
  - rewrite bind_run. simpl. apply Hget.
  - intros v0 w1 H0. rewrite (bind_ok _ _ _ _ _ H0).
    rewrite bind_run. simpl. apply Hget.
Qed.

Lemma Box_mock_overrides_witness :
  ∃ w', (Box_mock 0 Office (VNumber 7);; Box_get 0 Office) world0
        = (Ok (VNumber 7), w') ∧
        objects w' !! 2 = Some [VNumber 0] ∧ next_loc w' = 7.
Proof.
  destruct (Box_mock_overrides 0 Office (VNumber 7) world0)
    as (_ & _ & _ & _ & H & _).
  eexists. split; [exact H | split; reflexivity].
Defined.

(** C3, as stated, fails in two ways.
    - A producer whose creation logic returns the same value on every
      run: let [P] be [factory(() => shared)], where [shared] is the object
      at address 2, and let [Box.get(P)] have cached [shared].  Then
      [Box.for(T).new(P)] passes [shared] itself, the cached instance, to
      the constructor of [T].
    - A target class whose constructor returns an existing object:
      for [class T { constructor() { return shared; } }], two calls of
      [Box.for(T).new()] return [shared] both times. *)
Lemma Construct_new_passes_cached_instance :
  (∃ P w0 w1 w2,
     factory (λ _, mret (VObject 2)) world0 = (Ok P, w0) ∧
     Box_get 0 P w0 = (Ok (VObject 2), w1) ∧
     cache_of w1 0 !! ident P = Some (VObject 2) ∧
     Construct_new (Box_for 0 plain_class) [P] w1 = (Ok (VObject 8), w2) ∧
     objects w2 !! 8 = Some [VObject 2] ∧
     ¬ new_dependency_never_cached_instance) ∧
  (∃ w1 w2,
     Construct_new (Box_for 0 (returning_class 2)) [] world0
     = (Ok (VObject 2), w1) ∧
     Construct_new (Box_for 0 (returning_class 2)) [] w1
     = (Ok (VObject 2), w2)).
Proof.
  split.
  - set (P := {| ident := 7; init := Some (λ _, mret (VObject 2) : M Value);
                 class := None |}).
    set (w0 := (factory (λ _, mret (VObject 2)) world0).2).
    set (w1 := (Box_get 0 P w0).2).
    exists P, w0, w1. eexists.
    split; [reflexivity|]. split; [reflexivity|]. split; [reflexivity|].
    split; [reflexivity|]. split; [reflexivity|].
    intros Hclaim.
    apply (Hclaim 0 [P] w1 [VObject 2] w1 0 P (VObject 2) (VObject 2)).
    + apply Forall_cons_2; [|apply Forall_nil_2]. intros u. reflexivity.
    + econstructor; [reflexivity | constructor].
    + reflexivity.
    + reflexivity.
    + reflexivity.
    + vm_compute. lia.
    + reflexivity.
  - eexists. eexists. split; reflexivity.
Qed.

(** C3, amended.  [Box.for(T).new(p_1, ..., p_n)], for producers and a
    class whose logic never moves the allocation pointer back.
    - Order and position: when [Box.new] resolves [p_1 ... p_n] from left
      to right into the values [vs], the call is [new T(...vs)] run in the
      store the resolution left; conversely every value returned by the
      call arises that way, with one value per producer.  Each dependency
      thus comes from a run of its producer's creation logic, not from the
      cache.
    - Nothing is cached: the builder leaves every cache as the producers'
      logic and [T]'s constructor leave it; if those write no cache, none
      is written, and in any case none is written once the dependencies
      are resolved unless [T]'s constructor does it.
    - When [T]'s constructor returns no object of its own, the result is
      the object allocated by that [new]: it did not exist before the
      call, and no later call of the builder, with any producers, returns
      it again.  (A constructor that returns an existing object makes the
      builder return that object.)
    - A dependency whose producer is a class with a constructor that
      returns no object of its own, or has an [init] that returns an
      object it has just allocated, is an object allocated during the
      call: it differs from every instance that existed before, and so
      from the container's cache entry for that producer when there is
      one.  (Nothing of the kind is claimed for a producer that returns
      the same value on every run.) *)
Theorem Construct_new_transient this T ps w :
  Forall (λ p, Keeps alloc_le (Box_new this p)) ps →
  (∀ o vs, Keeps alloc_le (T o vs)) →
  (∀ vs w1, resolved (Box_new this) ps w vs w1 →
     Construct_new (Box_for this T) ps w = js_new T vs w1) ∧
  (Forall (λ p, Keeps same_boxes (Box_new this p)) ps →
   (∀ o vs, Keeps same_boxes (T o vs)) →
   boxes (Construct_new (Box_for this T) ps w).2 = boxes w) ∧
  (∀ r w', Construct_new (Box_for this T) ps w = (Ok r, w') →
     ∃ vs w1,
       resolved (Box_new this) ps w vs w1 ∧
       length vs = length ps ∧
       js_new T vs w1 = (Ok r, w') ∧
       next_loc w ≤ next_loc w1 < next_loc w' ∧
       ((∀ o, Keeps same_boxes (T o vs)) → boxes w' = boxes w1) ∧
       ((∀ vs', returns_own T vs') →
          r = VObject (next_loc w1) ∧
          ∀ ps' u r' u',
            alloc_le w' u →
            Forall (λ p, Keeps alloc_le (Box_new this p)) ps' →
            Construct_new (Box_for this T) ps' u = (Ok r', u') →
            r' ≠ r) ∧
       (∀ i p v, ps !! i = Some p → vs !! i = Some v →
          (init p = None ∧ ∀ C, class p = Some C → returns_own C []) ∨
            creates_fresh (Box_new this p) →
          (∃ l, v = VObject l ∧ next_loc w ≤ l) ∧
          (∀ x, cache_of w this !! ident p = Some x → allocated w x →
                v ≠ x))).
Proof.
  intros Hps HT. split; [|split].
  - intros vs w1 Hr. apply mapM_resolved in Hr.
    unfold Construct_new. by rewrite (bind_ok _ _ _ _ _ Hr).
  - intros Hps' HT'. symmetry.
    apply (keeps_Construct_new same_boxes); [done|].
    intros vs. by apply keeps_js_new; [apply _ | apply alloc_keeps_same_boxes |].
  - intros r w' Hrun. unfold Construct_new in Hrun.
    apply bind_ok_inv in Hrun as (vs & w1 & Hmap & Hnew). simpl in Hnew.
    apply mapM_resolved in Hmap.
    destruct (resolved_lookup alloc_le _ _ _ _ _ Hps Hmap) as [Hle Hdeps].
    pose proof (js_new_alloc _ _ _ _ _ (λ o, HT o vs) Hnew) as Hlt.
    unfold alloc_le in Hle.
    assert (∀ i p v, ps !! i = Some p → vs !! i = Some v →
              (init p = None ∧ ∀ C, class p = Some C → returns_own C []) ∨
                creates_fresh (Box_new this p) →
              ∃ l, v = VObject l ∧ next_loc w ≤ l) as Hfresh.
    { intros i p v Hi Hv Hkind.
      destruct (Hdeps i p Hi) as (v' & wa & wb & Hv' & Hp & Ha & _).
      assert (v' = v) as -> by congruence. unfold alloc_le in Ha.
      destruct Hkind as [[Hinit Hown]|Hcf].
      - unfold Box_new in Hp. rewrite Hinit in Hp.
        destruct (class p) as [C|]; [|discriminate].
        apply (js_new_own _ _ _ _ _ (Hown C eq_refl)) in Hp as ->. eauto.
      - destruct (Hcf _ _ _ Hp) as (l & -> & Hl). exists l.
        split; [done | lia]. }
    exists vs, w1.
    split; [done|]. split; [by eapply resolved_length|].
    split; [done|]. split; [lia|].
    split; [|split].
    + intros HT'. symmetry.
      pose proof (keeps_js_new same_boxes alloc_keeps_same_boxes T vs HT' w1)
        as Hk.
      by rewrite Hnew in Hk.
    + intros Hown.
      pose proof (js_new_own _ _ _ _ _ (Hown vs) Hnew) as Hr.
      split; [done|].
      intros ps' u r' u' Hu Hps' Hrun' ->. unfold Construct_new in Hrun'.
      apply bind_ok_inv in Hrun' as (vs' & u1 & Hmap' & Hnew').
      simpl in Hnew'. apply mapM_resolved in Hmap'.
      destruct (resolved_lookup alloc_le _ _ _ _ _ Hps' Hmap') as [Hle' _].
      pose proof (js_new_own _ _ _ _ _ (Hown vs') Hnew') as Hr'.
      unfold alloc_le in *. simplify_eq. lia.
    + intros i p v Hi Hv Hkind.
      destruct (Hfresh i p v Hi Hv Hkind) as (l & -> & Hl).
      split; [eauto|]. intros x _ Hax <-. simpl in Hax. lia.
Qed.

Lemma Construct_new_transient_witness :
  let w := (Box_get 0 Printer world0).2 in
  cache_of w 0 !! ident Printer = Some (VObject 7) ∧
  ∃ w', Construct_new (Box_for 0 plain_class) [Printer; Office] w
        = (Ok (VObject 10), w') ∧
        objects w' !! 10 = Some [VObject 8; VObject 9] ∧
        boxes w' = boxes w.
Proof.
  intros w.
  destruct (Construct_new_transient 0 plain_class [Printer; Office] w)
    as (_ & Hsame & _).
  { apply samples_keep, objects_only_alloc_le. }
  { intros o vs. apply plain_class_keeps, objects_only_alloc_le. }
  split; [reflexivity|]. eexists. split; [reflexivity|].
  split; [reflexivity|]. apply Hsame.
  - apply samples_keep, objects_only_same_boxes.
  - intros o vs. apply plain_class_keeps, objects_only_same_boxes.
Defined.




(** C5.  Let the creation logic of [P] throw [e] and leave the store
    [w1].  Then [Box.new(P)] throws the same [e] and leaves the same [w1];
    and when the cache has no entry for [P], so does [Box.get(P)]: the
    container adds nothing, in particular no cache entry, so [P] is still
    absent from the cache if the logic wrote no cache.  With [P] absent
    after the failure, the next [Box.get(P)] runs the creation logic
    again, and what it returns or throws is what that second run returns
    (and is then cached) or throws. *)
Theorem producer_error_propagates this P w e w1 :
  creation_raises this P w e w1 →
  Box_new this P w = (Thrown e, w1) ∧
  (cache_of w this !! ident P = None →
     Box_get this P w = (Thrown e, w1) ∧
     (boxes w1 = boxes w → cache_of w1 this !! ident P = None) ∧
     (cache_of w1 this !! ident P = None →
        Box_get this P w1 =
        match Box_new this P w1 with
        | (Ok v, w2) => (Ok v, set_cache w2 this (ident P) v)
        | (Thrown e', w2) => (Thrown e', w2)
        end)).
Proof.
  intros Hraise.
  assert (Box_new this P w = (Thrown e, w1)) as Hnew.
  { unfold creation_raises in Hraise. unfold Box_new.
    destruct (init P) as [f|]; [done|].
    destruct (class P) as [C|]; [|done].
    unfold js_new. rewrite bind_run. simpl in *. by rewrite bind_run, Hraise. }
  split; [done|]. intros Hmiss. split; [|split].
  - by rewrite (Box_get_miss _ _ _ Hmiss), Hnew.
  - intros Hb. unfold cache_of in *. by rewrite Hb.
  - apply Box_get_miss.
Qed.

Lemma producer_error_propagates_witness :
  ∃ w1 w2,
    Box_get 0 Flaky world0 = (Thrown (VString "boom"), w1) ∧
    cache_of w1 0 !! ident Flaky = None ∧
    Box_get 0 Flaky w1 = (Ok (VObject 7), w2) ∧
    cache_of w2 0 !! ident Flaky = Some (VObject 7) ∧
    Box_new 0 Broken world0
    = (Thrown (VString "boom"), (alloc world0).2).
Proof.
  destruct (producer_error_propagates 0 Flaky world0 (VString "boom")
              (Box_new 0 Flaky world0).2 eq_refl) as [_ Hget].
  destruct (Hget eq_refl) as (H1 & H2 & H3).
  destruct (producer_error_propagates 0 Broken world0 (VString "boom")
              (alloc world0).2 eq_refl) as [Hnew _].
  eexists. eexists. split; [exact H1|]. split; [reflexivity|].
  split; [rewrite (H3 eq_refl); reflexivity|]. split; [reflexivity|].
  exact Hnew.
Defined.

(** C6, as stated, fails: an override replaces the cached instance.  After
    [Box.get(Printer)] has cached the object at address 6, the single
    operation [Box.mock(box, Printer, 7)] makes [Box.get(Printer)] return
    7. *)
Lemma cache_entry_replaced_by_mock :
  let w := (Box_get 0 Printer world0).2 in
  let w' := run_ops [OpMock 0 Printer (VNumber 7)] w in
  cache_of w 0 !! ident Printer = Some (VObject 7) ∧
  Box_get 0 Printer w' = (Ok (VNumber 7), w') ∧
  ¬ cache_entry_permanent.
Proof.
  intros w w'. split; [reflexivity|]. split; [reflexivity|].
  intros Hperm.
  specialize (Hperm 0 Printer w (VObject 7) [OpMock 0 Printer (VNumber 7)]
                eq_refl).
  assert (Box_get 0 Printer w' = (Ok (VObject 7), w')) as H
    by (apply Hperm; repeat constructor).
  discriminate H.
Qed.

(** C6, amended.  Let [P] have the entry [v] in the cache of container [b],
    and let any sequence of operations follow ([Box.new], [Box.get],
    [Box.mock], and the builder's [new] and [get], on any containers and
    producers).
    - No eviction: if the producers' creation logic removes no key, [P]
      still has an entry afterwards, overrides included.
    - Same instance: if moreover no operation of the sequence is
      [Box.mock(b, P, _)] and the creation logic the operations run
      replaces no entry of [P] in [b], then [Box.get(P)] on [b] still
      returns [v] and leaves the store alone. *)
Theorem cache_entry_lifetime b P w v ops :
  cache_of w b !! ident P = Some v →
  (Forall (producers_keep keys_kept) ops →
     is_Some (cache_of (run_ops ops w) b !! ident P)) ∧
  (Forall (producers_keep (pinned b (ident P))) ops →
   Forall (λ o, ¬ is_mock_of b (ident P) o) ops →
     Box_get b P (run_ops ops w) = (Ok v, run_ops ops w)).
Proof.
  intros Hv. split.
  - intros Hops.
    assert (keys_kept w (run_ops ops w)) as Hk.
    { apply run_ops_keeps; [apply _|].
      eapply Forall_impl; [exact Hops|]. apply run_op_keys_kept. }
    apply Hk. eauto.
  - intros Hops Hnomock.
    assert (pinned b (ident P) w (run_ops ops w)) as Hk.
    { apply run_ops_keeps; [apply _|].
      rewrite Forall_forall in Hops, Hnomock. apply Forall_forall.
      intros o Ho. apply run_op_pinned; auto. }
    apply Box_get_hit, Hk, Hv.
Qed.

Lemma cache_entry_lifetime_witness :
  let w := (Box_get 0 Printer world0).2 in
  let ops := [OpGet 0 Office; OpMock 0 Office (VNumber 1); OpNew 0 Printer;
              OpForGet 0 plain_class [Printer; Office]; OpGet 0 Flaky;
              OpForNew 0 plain_class [Printer]; OpGet 0 Desk] in
  Box_get 0 Printer (run_ops ops w) = (Ok (VObject 7), run_ops ops w).
Proof.
  intros w ops.
  destruct (cache_entry_lifetime 0 Printer w (VObject 7) ops eq_refl)
    as [_ Hsame].
  assert (∀ w w', objects_only w w' → pinned 0 (ident Printer) w w') as HR
    by apply objects_only_pinned.
  assert (∀ vs, Keeps (pinned 0 (ident Printer)) (js_new plain_class vs))
    as HT.
  { intros vs. eapply keeps_weaken; [exact HR|].
    apply keeps_js_new; [apply _ | apply alloc_objects_only |].
    intros o. apply plain_class_objects_only. }
  apply Hsame.
  - repeat apply Forall_cons_2; try apply Forall_nil_2; simpl.
    + eapply keeps_weaken; [exact HR | apply Office_objects_only].
    + exact I.
    + eapply keeps_weaken; [exact HR | apply Printer_objects_only].
    + split; [by apply samples_keep | exact HT].
    + eapply keeps_weaken; [exact HR | apply Flaky_objects_only].
    + split; [|exact HT]. apply Forall_cons_2; [|apply Forall_nil_2].
      eapply keeps_weaken; [exact HR | apply Printer_objects_only].
    + intros u. apply Desk_entries_kept.
  - repeat apply Forall_cons_2; try apply Forall_nil_2; simpl;
      try (intros []; done); intros [_ [=]].
Defined.

(** C7.  The cache is keyed by the identity of the producer object.
    - For producers [P] and [Q] of distinct identity, whatever their
      creation logic (it may be the same): a successful [Box.get(Q)] files
      its result under [Q]'s identity and leaves the entry of [P] as it
      was, provided [Q]'s own logic does not override it.
    - Two calls of [constant], for any values [v1] and [v2], equal or not,
      yield producers of distinct identity; in a store whose cache keys
      are allocated objects, [Box.get] then returns [v1] for the first and
      [v2] for the second, on the first call and on the next, and the
      cache holds the two entries side by side.
    - [Box.get] on [constant(3000)] returns 3000 on each of any number of
      successive calls. *)
Theorem cache_keyed_by_identity this w :
  (∀ P Q v x w',
     ident P ≠ ident Q →
     Keeps (pinned this (ident P)) (Box_new this Q) →
     cache_of w this !! ident P = Some v →
     Box_get this Q w = (Ok x, w') →
     cache_of w' this !! ident P = Some v ∧
     cache_of w' this !! ident Q = Some x) ∧
  (keys_allocated w → ∀ v1 v2,
     ∃ P Q w1,
       (P ← constant v1; Q ← constant v2; mret (P, Q)) w = (Ok (P, Q), w1) ∧
       ident P ≠ ident Q ∧
       ∃ w2,
         (a ← Box_get this P; b ← Box_get this Q;
          c ← Box_get this P; d ← Box_get this Q;
          mret [a; b; c; d]) w1 = (Ok [v1; v2; v1; v2], w2) ∧
         cache_of w2 this !! ident P = Some v1 ∧
         cache_of w2 this !! ident Q = Some v2) ∧
  (keys_allocated w →
     ∃ P w1,
       constant (VNumber 3000) w = (Ok P, w1) ∧
       ∀ n, 1 ≤ n →
         ∃ w2, Box_get_times n this P w1
               = (Ok (replicate n (VNumber 3000)), w2)).
Proof.
  assert (∀ k, keys_allocated w → next_loc w ≤ k →
               cache_of w this !! k = None) as Hfree.
  { intros k Hw Hk. destruct (cache_of w this !! k) eqn:E; [|done].
    assert (k < next_loc w) by (apply (Hw this); eauto). lia. }
  split; [|split].
  - intros P Q v x w' Hne HQ Hv Hget. split.
    + pose proof (keeps_pinned_Box_get this Q this (ident P) HQ w) as Hk.
      rewrite Hget in Hk. by apply Hk.
    + by eapply Box_get_ok_cached.
  - intros Hw v1 v2.
    set (l := next_loc w).
    set (P := {| ident := l; init := Some (λ _, mret v1 : M Value);
                 class := None |}).
    set (Q := {| ident := S l; init := Some (λ _, mret v2 : M Value);
                 class := None |}).
    set (w1 := {| next_loc := S (S l); boxes := boxes w;
                  objects := objects w |}).
    set (wa := set_cache w1 this l v1).
    set (wb := set_cache wa this (S l) v2).
    exists P, Q, w1. split; [reflexivity|]. split; [simpl; lia|].
    assert (Box_get this P w1 = (Ok v1, wa)) as H1.
    { rewrite Box_get_miss; [done|]. apply (Hfree l Hw). lia. }
    assert (Box_get this Q wa = (Ok v2, wb)) as H2.
    { rewrite Box_get_miss; [done|]. unfold wa.
      rewrite lookup_set_cache_ne by (intros [=]; lia).
      apply (Hfree (S l) Hw). lia. }
    assert (cache_of wb this !! ident P = Some v1) as HP.
    { unfold wb. rewrite lookup_set_cache_ne by (intros [=]; simpl in *; lia).
      apply lookup_set_cache_eq. }
    assert (cache_of wb this !! ident Q = Some v2) as HQ
      by apply lookup_set_cache_eq.
    exists wb. split; [|done].
    rewrite (bind_ok _ _ _ _ _ H1), (bind_ok _ _ _ _ _ H2).
    rewrite (bind_ok _ _ _ _ _ (Box_get_hit _ _ _ _ HP)).
    by rewrite (bind_ok _ _ _ _ _ (Box_get_hit _ _ _ _ HQ)).
  - intros Hw.
    set (l := next_loc w).
    set (P := {| ident := l; init := Some (λ _, mret (VNumber 3000) : M Value);
                 class := None |}).
    set (w1 := {| next_loc := S l; boxes := boxes w; objects := objects w |}).
    exists P, w1. split; [reflexivity|]. intros n Hn.
    assert (cache_of w1 this !! ident P = None) as Hmiss
      by (apply (Hfree l Hw); lia).
    assert (Box_get this P w1
            = (Ok (VNumber 3000), set_cache w1 this (ident P) (VNumber 3000)))
      as Hfirst by (by rewrite (Box_get_miss _ _ _ Hmiss)).
    destruct n as [|n]; [lia|]. eexists. unfold Box_get_times.
    cbn [replicate]. rewrite mapM_cons_run, Hfirst.
    pose proof (Box_get_times_cached this P
                  (set_cache w1 this (ident P) (VNumber 3000))
                  (VNumber 3000) n (lookup_set_cache_eq _ _ _ _)) as Hrest.
    unfold Box_get_times in Hrest. by rewrite Hrest.
Qed.

Lemma cache_keyed_by_identity_witness :
  let w := (Box_create empty_world).2 in
  keys_allocated w ∧
  ∃ P Q w1 w2,
    (P ← constant (VNumber 3000); Q ← constant (VNumber 3000); mret (P, Q)) w
    = (Ok (P, Q), w1) ∧
    ident P ≠ ident Q ∧
    (a ← Box_get 0 P; b ← Box_get 0 Q; c ← Box_get 0 P; d ← Box_get 0 Q;
     mret [a; b; c; d]) w1
    = (Ok [VNumber 3000; VNumber 3000; VNumber 3000; VNumber 3000], w2) ∧
    cache_of w2 0 !! ident P = Some (VNumber 3000) ∧
    cache_of w2 0 !! ident Q = Some (VNumber 3000).
Proof.
  intros w.
  assert (keys_allocated w) as Hw.
  { intros b k [v Hv]. unfold cache_of, w in Hv. simpl in Hv.
    destruct (decide (b = 0)) as [->|Hb].
    - rewrite lookup_insert_eq in Hv. simpl in Hv.
      rewrite lookup_empty in Hv. discriminate Hv.
    - rewrite lookup_insert_ne in Hv by done. rewrite lookup_empty in Hv.
      simpl in Hv. rewrite lookup_empty in Hv. discriminate Hv. }
  split; [exact Hw|].
  destruct (cache_keyed_by_identity 0 w) as (_ & Hconst & _).
  destruct (Hconst Hw (VNumber 3000) (VNumber 3000))
    as (P & Q & w1 & H1 & H2 & w2 & H3 & H4 & H5).
  exists P, Q, w1, w2. repeat split; assumption.
Defined.

(** C8.  [Box.new(P)] is the creation logic of [P] and nothing else.
    - It is the call of [init] with the container as argument when [P] has
      an [init] member, and otherwise the construction [new P()] with no
      argument, whatever the cache holds.
    - It does not read the cache: if the logic does not look at a cache
      entry (for instance the one of [P] itself), the outcome of
      [Box.new(P)] is the same whatever that entry is.
    - It does not write the cache: if the logic writes no cache, all
      caches are the same after the call as before.
    - Two calls run the logic twice, one after the other; when they both
      return, the two instances are distinct if the logic is not constant:
      if [P] is a class whose constructor returns no object of its own
      (and does not move the allocation pointer back), so that each
      [new P()] is a new object, or if its [init] returns an object it has
      just allocated. *)
Theorem Box_new_transient this P w :
  (∀ f, init P = Some f → Box_new this P w = f this w) ∧
  (∀ C, init P = None → class P = Some C → Box_new this P w = js_new C [] w) ∧
  (∀ b k,
     (∀ f, init P = Some f → ignores_entry b k (f this)) →
     (∀ C, init P = None → class P = Some C → ∀ o, ignores_entry b k (C o [])) →
     ∀ x, Box_new this P (set_cache w b k x)
          = ((Box_new this P w).1, set_cache (Box_new this P w).2 b k x)) ∧
  ((∀ f, init P = Some f → Keeps same_boxes (f this)) →
   (∀ C, init P = None → class P = Some C → ∀ o, Keeps same_boxes (C o [])) →
   boxes (Box_new this P w).2 = boxes w) ∧
  (x ← Box_new this P; y ← Box_new this P; mret (x, y)) w =
    match Box_new this P w with
    | (Ok x, w1) =>
        match Box_new this P w1 with
        | (Ok y, w2) => (Ok (x, y), w2)
        | (Thrown e, w2) => (Thrown e, w2)
        end
    | (Thrown e, w1) => (Thrown e, w1)
    end ∧
  (∀ x y w2,
     (∀ f, init P = Some f → creates_fresh (f this)) →
     (∀ C, init P = None → class P = Some C →
        returns_own C [] ∧ ∀ o, Keeps alloc_le (C o [])) →
     (x ← Box_new this P; y ← Box_new this P; mret (x, y)) w = (Ok (x, y), w2) →
     x ≠ y).
Proof.
  split; [|split; [|split; [|split; [|split]]]].
  - intros f Hf. unfold Box_new. by rewrite Hf.
  - intros C Hi Hc. unfold Box_new. by rewrite Hi, Hc.
  - intros b k Hi Hc x. by apply ignores_entry_Box_new.
  - intros Hi Hc. symmetry.
    by apply (keeps_Box_new same_boxes alloc_keeps_same_boxes).
  - rewrite bind_run. destruct (Box_new this P w) as [[x|e] w1]; [|done].
    rewrite bind_run. by destruct (Box_new this P w1) as [[y|e] w2].
  - intros x y w2 Hi Hc Hrun. eapply creates_fresh_twice; [|exact Hrun].
    unfold Box_new. destruct (init P) as [f|]; [by apply Hi|].
    destruct (class P) as [C|].
    + destruct (Hc C eq_refl eq_refl) as [Hown Hle].
      by apply js_new_creates_fresh.
    + intros u v u' [=].
Qed.

Lemma Box_new_transient_witness :
  let w := (Box_get 0 Printer world0).2 in
  ∃ w2,
    (x ← Box_new 0 Printer; y ← Box_new 0 Printer; mret (x, y)) w
    = (Ok (VObject 8, VObject 9), w2) ∧
    objects w !! 2 = Some [VNumber 1] ∧
    objects w2 !! 2 = Some [VNumber 3] ∧
    boxes w2 = boxes w ∧
    VObject 8 ≠ VObject 9.
Proof.
  intros w.
  destruct (Box_new_transient 0 Printer w) as (_ & _ & _ & _ & _ & Hne).
  eexists. split; [reflexivity|]. split; [reflexivity|].
  split; [reflexivity|]. split; [reflexivity|].
  eapply Hne; [| |reflexivity].
  - intros f [=].
  - intros C _ [= <-]. split.
    + apply counting_class_returns_own.
    + intros o. eapply keeps_weaken;
        [apply objects_only_alloc_le | apply counting_class_objects_only].
Defined.

(** C9.  An override does not reach [Box.new].  In the store left by
    [Box.mock(box, P, V)]:
    - [box.new(P)] is still the call of [P]'s [init] with the container,
      or the construction [new P()]: the creation logic runs;
    - if that logic does not look at [P]'s cache entry, [box.new(P)]
      returns or throws exactly what it does without the override;
    - if [P] is a class whose constructor returns no object of its own
      and [V] a value that exists in the store, [box.new(P)] returns the
      newly allocated object, which is not [V];
    - [box.get(P)] returns [V], and still does after [box.new(P)] when the
      logic leaves [P]'s entry in place. *)
Theorem Box_mock_spares_Box_new box P V w :
  let w' := (Box_mock box P V w).2 in
  (∀ f, init P = Some f → Box_new box P w' = f box w') ∧
  (∀ C, init P = None → class P = Some C → Box_new box P w' = js_new C [] w') ∧
  (ignores_entry box (ident P) (Box_new box P) →
     (Box_new box P w').1 = (Box_new box P w).1) ∧
  (∀ C r w2, init P = None → class P = Some C → returns_own C [] →
     allocated w V →
     Box_new box P w' = (Ok r, w2) → r = VObject (next_loc w) ∧ r ≠ V) ∧
  Box_get box P w' = (Ok V, w') ∧
  (Keeps (pinned box (ident P)) (Box_new box P) →
     let w2 := (Box_new box P w').2 in Box_get box P w2 = (Ok V, w2)).
Proof.
  intros w'. split; [|split; [|split; [|split; [|split]]]].
  - intros f Hf. unfold Box_new. by rewrite Hf.
  - intros C Hi Hc. unfold Box_new. by rewrite Hi, Hc.
  - intros Hig. unfold w'. simpl. by rewrite Hig.
  - intros C r w2 Hi Hc Hown HV Hnew. unfold Box_new in Hnew.
    rewrite Hi, Hc in Hnew. apply (js_new_own _ _ _ _ _ Hown) in Hnew as ->.
    split; [done|]. intros HeqV. rewrite <- HeqV in HV. simpl in HV. lia.
  - apply Box_get_hit, lookup_set_cache_eq.
  - intros Hk w2. apply Box_get_hit. apply (Hk w'), lookup_set_cache_eq.
Qed.

Lemma Box_mock_spares_Box_new_witness :
  let w' := (Box_mock 0 Printer (VNumber 7) world0).2 in
  ∃ w2,
    Box_new 0 Printer w' = (Ok (VObject 7), w2) ∧
    objects w2 !! 2 = Some [VNumber 1] ∧
    Box_get 0 Printer w2 = (Ok (VNumber 7), w2) ∧
    VObject 7 ≠ VNumber 7.
Proof.
  intros w'.
  destruct (Box_mock_spares_Box_new 0 Printer (VNumber 7) world0)
    as (_ & _ & _ & Hclass & _ & Hget).
  destruct (Hclass (counting_class 2) (VObject 7) (Box_new 0 Printer w').2
              eq_refl eq_refl (counting_class_returns_own 2 []) I eq_refl)
    as [_ Hne].
  eexists. split; [reflexivity|]. split; [reflexivity|]. split; [|exact Hne].
  apply Hget. eapply keeps_weaken;
    [apply objects_only_pinned | apply Printer_objects_only].
Defined.

(** C10.  The [init] member takes precedence.  For a producer [P] with an
    [init] member [f]:
    - [Box.new(P)] is the call [f(container)];
    - this is so whatever constructor [P] has or has not: replacing the
      class part of [P] by any other changes nothing, so the constructor
      is not run;
    - on a cache miss [Box.get(P)] returns and caches what [f(container)]
      returns, or throws what it throws.
    A producer [Q] without [init] member that is a class [C] is
    constructed with no argument, by [Box.new] and by [Box.get] on a
    miss. *)
Theorem init_takes_precedence this P f w :
  init P = Some f →
  Box_new this P w = f this w ∧
  (∀ i C', Box_new this {| ident := i; init := Some f; class := C' |} w
           = f this w) ∧
  (cache_of w this !! ident P = None →
     Box_get this P w =
     match f this w with
     | (Ok v, w1) => (Ok v, set_cache w1 this (ident P) v)
     | (Thrown e, w1) => (Thrown e, w1)
     end) ∧
  (∀ Q C, init Q = None → class Q = Some C →
     Box_new this Q w = js_new C [] w ∧
     (cache_of w this !! ident Q = None →
        Box_get this Q w =
        match js_new C [] w with
        | (Ok v, w1) => (Ok v, set_cache w1 this (ident Q) v)
        | (Thrown e, w1) => (Thrown e, w1)
        end)).
Proof.
  intros Hf.
  assert (Box_new this P w = f this w) as Hnew
    by (unfold Box_new; by rewrite Hf).
  split; [done|]. split; [done|]. split.
  - intros Hmiss. by rewrite (Box_get_miss _ _ _ Hmiss), Hnew.
  - intros Q C Hi Hc.
    assert (Box_new this Q w = js_new C [] w) as HnewQ
      by (unfold Box_new; by rewrite Hi, Hc).
    split; [done|]. intros Hmiss. by rewrite (Box_get_miss _ _ _ Hmiss), HnewQ.
Qed.

Lemma init_takes_precedence_witness :
  ∃ w1 init_of_Office,
    init Office = Some init_of_Office ∧
    class Office = Some failing_class ∧
    Box_new 0 Office world0 = (Ok (VObject 7), w1) ∧
    init_of_Office 0 world0 = (Ok (VObject 7), w1) ∧
    objects w1 !! 7 = Some [VString "from init"].
Proof.
  destruct (init_takes_precedence 0 Office _ world0 eq_refl) as (Hnew & _).
  eexists. eexists. split; [reflexivity|]. split; [reflexivity|].
  split; [rewrite Hnew; reflexivity|]. split; reflexivity.
Defined.

(** * Further properties of the code *)

Lemma keys_allocated_free w b k :
  keys_allocated w → next_loc w ≤ k → cache_of w b !! k = None.
Proof.
  intros Hw Hk. destruct (cache_of w b !! k) eqn:E; [|done].
  assert (k < next_loc w) by (apply (Hw b); eauto). lia.
Qed.

Lemma Box_create_keys_allocated : keys_allocated (Box_create empty_world).2.
Proof.
  intros b k [v Hv]. unfold cache_of in Hv. simpl in Hv.
  destruct (decide (b = 0)) as [->|Hb].
  - rewrite lookup_insert_eq in Hv. simpl in Hv.
    rewrite lookup_empty in Hv. discriminate Hv.
  - rewrite lookup_insert_ne in Hv by done. rewrite lookup_empty in Hv.
    simpl in Hv. rewrite lookup_empty in Hv. discriminate Hv.
Qed.

(** X1.  A producer made by [factory(f)] and then fetched: in a store
    whose cache keys are allocated objects, [Box.get] on the new producer
    never finds an entry, so it calls [f] with the container; what [f]
    throws is thrown, and what [f] returns is returned and cached under
    the new identity, so that a second [Box.get] returns it again without
    calling [f]. *)
Theorem factory_get_once b f w :
  keys_allocated w →
  (P ← factory f; Box_get b P) w =
    match f b (alloc w).2 with
    | (Ok v, w1) => (Ok v, set_cache w1 b (next_loc w) v)
    | (Thrown e, w1) => (Thrown e, w1)
    end ∧
  (∀ v w1, f b (alloc w).2 = (Ok v, w1) →
     (P ← factory f; x ← Box_get b P; y ← Box_get b P; mret (ident P, x, y)) w
     = (Ok (next_loc w, v, v), set_cache w1 b (next_loc w) v)).
Proof.
  intros Hw.
  set (P := {| ident := next_loc w; init := Some f; class := None |}).
  assert (factory f w = (Ok P, (alloc w).2)) as Hfac by reflexivity.
  assert (cache_of (alloc w).2 b !! ident P = None) as Hmiss
    by (apply (keys_allocated_free w b (next_loc w) Hw); lia).
  assert (Box_get b P (alloc w).2 =
          match f b (alloc w).2 with
          | (Ok v, w1) => (Ok v, set_cache w1 b (next_loc w) v)
          | (Thrown e, w1) => (Thrown e, w1)
          end) as Hget by (by rewrite (Box_get_miss _ _ _ Hmiss)).
  split.
  - by rewrite (bind_ok _ _ _ _ _ Hfac).
  - intros v w1 Hf. rewrite Hf in Hget.
    rewrite (bind_ok _ _ _ _ _ Hfac), (bind_ok _ _ _ _ _ Hget).
    by rewrite (bind_ok _ _ _ _ _
                  (Box_get_hit b P _ v (lookup_set_cache_eq w1 b _ v))).
Qed.

Lemma factory_get_once_witness :
  ∃ w',
    (P ← factory (λ _, js_new plain_class []);
     x ← Box_get 0 P; y ← Box_get 0 P; mret (ident P, x, y))
      (Box_create empty_world).2
    = (Ok (1, VObject 2, VObject 2), w') ∧
    next_loc w' = 3.
Proof.
  destruct (factory_get_once 0 (λ _, js_new plain_class [])
              (Box_create empty_world).2 Box_create_keys_allocated)
    as [_ H].
  eexists. split; [apply H; reflexivity | reflexivity].
Defined.

(** X2.  Dependents share their dependency.  Let [A]'s [init] be
    [box => kA(box.get(S))], with [kA] leaving the entry of [S] in place,
    and let [Box.get(A)], on a miss, return [a].  Then [Box.get(S)]
    returned some [s] from which [kA] built [a]; afterwards [s] is the
    container's instance of [S], and every producer [B] whose [init] is
    [box => kB(box.get(S))], created in that store or a later one where
    the entry of [S] is still in place, is built from the same [s]. *)
Theorem shared_dependency this S A kA w a w1 :
  init A = Some (depends_on S kA) →
  ident A ≠ ident S →
  (∀ s, Keeps (pinned this (ident S)) (kA s)) →
  cache_of w this !! ident A = None →
  Box_get this A w = (Ok a, w1) →
  ∃ s w0 w0',
    Box_get this S w = (Ok s, w0) ∧
    kA s w0 = (Ok a, w0') ∧
    w1 = set_cache w0' this (ident A) a ∧
    Box_get this S w1 = (Ok s, w1) ∧
    ∀ B kB u,
      init B = Some (depends_on S kB) →
      pinned this (ident S) w1 u →
      Box_new this B u = kB s u.
Proof.
  intros HA Hne HkA Hmiss Hget.
  rewrite (Box_get_miss _ _ _ Hmiss) in Hget.
  unfold Box_new in Hget. rewrite HA in Hget. unfold depends_on in Hget.
  rewrite bind_run in Hget.
  destruct (Box_get this S w) as [[s|e] w0] eqn:HS; [|discriminate].
  destruct (kA s w0) as [[a'|e] w0'] eqn:Hk; [|discriminate].
  injection Hget as <- <-.
  assert (cache_of (set_cache w0' this (ident A) a') this !! ident S = Some s)
    as Hs.
  { rewrite lookup_set_cache_ne by (intros [=]; done).
    pose proof (HkA s w0 s) as Hp. rewrite Hk in Hp. apply Hp.
    by eapply Box_get_ok_cached. }
  exists s, w0, w0'. split; [done|]. split; [done|]. split; [done|].
  split; [by apply Box_get_hit|].
  intros B kB u HB Hu. unfold Box_new. rewrite HB. unfold depends_on.
  by rewrite (bind_ok _ _ _ _ _ (Box_get_hit this S u s (Hu s Hs))).
Qed.

Lemma shared_dependency_witness :
  ∃ w1,
    Box_get 0 Desk world0 = (Ok (VObject 8), w1) ∧
    Box_get 0 Printer w1 = (Ok (VObject 7), w1) ∧
    Box_new 0 Desk w1 = js_new plain_class [VObject 7] w1.
Proof.
  destruct (shared_dependency 0 Printer Desk (λ s, js_new plain_class [s])
              world0 (VObject 8) (Box_get 0 Desk world0).2 eq_refl)
    as (s & w0 & w0' & HS & Hk & _ & Hs & Hall); [done| |reflexivity..|].
  { intros s. eapply keeps_weaken; [apply objects_only_pinned|].
    apply keeps_js_new; [apply _ | apply alloc_objects_only |].
    intros o. apply plain_class_objects_only. }
  assert (s = VObject 7) as -> by (by injection HS as <- _).
  eexists. split; [reflexivity|]. split; [exact Hs|].
  apply (Hall Desk (λ s, js_new plain_class [s])); reflexivity.
Defined.

(** ** Containers side by side, and successive overrides *)

Lemma set_cache_twice w b k v k' v' :
  set_cache (set_cache w b k v) b k' v' =
  {| next_loc := next_loc w;
     boxes := <[b := <[k' := v']> (<[k := v]> (cache_of w b))]> (boxes w);
     objects := objects w |}.
Proof.
  unfold set_cache at 1. rewrite cache_of_set_cache, decide_True by done.
  unfold set_cache. simpl. by rewrite insert_insert_eq.
Qed.

(** X3.  Each container has a cache of its own.  For two different
    containers [b1] and [b2]: an override in [b1] leaves the cache of [b2]
    as it is, and so does [Box.get] on [b1] when the producer's logic
    writes no cache.  A container just created has an empty cache, its
    creation leaves the caches of the others as they are, and its first
    [Box.get(P)] runs the creation logic of [P] whatever the other
    containers have cached. *)
Theorem containers_independent b1 b2 P w :
  b1 ≠ b2 →
  (∀ v, cache_of (Box_mock b1 P v w).2 b2 = cache_of w b2) ∧
  (Keeps same_boxes (Box_new b1 P) →
     cache_of (Box_get b1 P w).2 b2 = cache_of w b2) ∧
  cache_of (Box_create w).2 (next_loc w) = ∅ ∧
  (∀ b, b ≠ next_loc w → cache_of (Box_create w).2 b = cache_of w b) ∧
  (b ← Box_create; Box_get b P) w =
    match Box_new (next_loc w) P (Box_create w).2 with
    | (Ok v, w1) => (Ok v, set_cache w1 (next_loc w) (ident P) v)
    | (Thrown e, w1) => (Thrown e, w1)
    end.
Proof.
  intros Hne.
  assert (cache_of (Box_create w).2 (next_loc w) = ∅) as Hempty.
  { unfold cache_of. simpl. by rewrite lookup_insert_eq. }
  split; [|split; [|split; [|split]]].
  - intros v. simpl. by rewrite cache_of_set_cache, decide_False.
  - intros Hk.
    destruct (Box_get_cases b1 P w)
      as [(v & _ & ->)|[(_ & v & w1 & Hw1 & ->)|(_ & e & w1 & Hw1 & ->)]];
      simpl; [done| |].
    + rewrite cache_of_set_cache, decide_False by done.
      specialize (Hk w). rewrite Hw1 in Hk. symmetry.
      by apply same_boxes_cache_of.
    + specialize (Hk w). rewrite Hw1 in Hk. symmetry.
      by apply same_boxes_cache_of.
  - done.
  - intros b Hb. unfold cache_of. simpl. by rewrite lookup_insert_ne.
  - rewrite bind_run. cbn [Box_create fst snd]. apply Box_get_miss.
    change (cache_of (Box_create w).2 (next_loc w) !! ident P = None).
    by rewrite Hempty, lookup_empty.
Qed.

Lemma containers_independent_witness :
  let w := (Box_get 0 Printer world0).2 in
  ∃ b w1 w2,
    Box_create w = (Ok b, w1) ∧
    Box_get b Printer w1 = (Ok (VObject 9), w2) ∧
    cache_of w2 0 !! ident Printer = Some (VObject 7) ∧
    cache_of w2 b !! ident Printer = Some (VObject 9).
Proof.
  intros w.
  destruct (containers_independent 8 0 Printer (Box_create w).2)
    as (_ & Hget & _); [done|].
  exists 8, (Box_create w).2, (Box_get 8 Printer (Box_create w).2).2.
  split; [reflexivity|]. split; [reflexivity|]. split; [|reflexivity].
  rewrite Hget; [reflexivity|].
  eapply keeps_weaken; [apply objects_only_same_boxes|].
  apply Printer_objects_only.
Defined.

(** X4.  Overrides compose as writes to a map.  Two overrides of the same
    producer in a row leave the same store as the second alone: the last
    one wins.  Overrides of two producers of distinct identity can be
    swapped. *)
Theorem Box_mock_compose b P Q V1 V2 w :
  (Box_mock b P V1;; Box_mock b P V2) w = Box_mock b P V2 w ∧
  (ident P ≠ ident Q →
     (Box_mock b P V1;; Box_mock b Q V2) w
     = (Box_mock b Q V2;; Box_mock b P V1) w).
Proof.
  split.
  - rewrite bind_run. unfold Box_mock, cache_set. cbv beta iota.
    rewrite set_cache_twice. unfold set_cache. by rewrite insert_insert_eq.
  - intros Hne. rewrite !bind_run. unfold Box_mock, cache_set. cbv beta iota.
    rewrite !set_cache_twice. by rewrite insert_insert_ne.
Qed.

Lemma Box_mock_compose_witness :
  (Box_mock 0 Printer (VNumber 1);; Box_mock 0 Office (VNumber 2)) world0
  = (Box_mock 0 Office (VNumber 2);; Box_mock 0 Printer (VNumber 1)) world0.
Proof.
  destruct (Box_mock_compose 0 Printer Office (VNumber 1) (VNumber 2) world0)
    as [_ Hswap].
  apply Hswap. simpl. lia.
Defined.

(** X5.  An override is not retroactive.  Let [A] have the cached instance
    [a] in container [b], and let [S] be a producer of another identity.
    After [Box.mock(b, S, V)], [Box.get(A)] still returns [a] and the
    store is otherwise untouched: no object has changed, so what [a] was
    built from is still in place.  But if [A]'s [init] is
    [box => kA(box.get(S))], a new construction [Box.new(A)] is built from
    [V]. *)
Theorem Box_mock_not_retroactive b S A V w a :
  ident A ≠ ident S →
  cache_of w b !! ident A = Some a →
  let w' := (Box_mock b S V w).2 in
  Box_get b A w' = (Ok a, w') ∧
  objects w' = objects w ∧
  next_loc w' = next_loc w ∧
  (∀ kA, init A = Some (depends_on S kA) → Box_new b A w' = kA V w').
Proof.
  intros Hne Ha w'. split; [|split; [done|split; [done|]]].
  - apply Box_get_hit. unfold w'. simpl.
    rewrite lookup_set_cache_ne by (intros [=]; congruence). done.
  - intros kA HA. unfold Box_new. rewrite HA. unfold depends_on.
    by rewrite (bind_ok _ _ _ _ _
                  (Box_get_hit b S w' V (lookup_set_cache_eq w b _ V))).
Qed.

Lemma Box_mock_not_retroactive_witness :
  let w := (Box_get 0 Desk world0).2 in
  let w' := (Box_mock 0 Printer (VString "mock") w).2 in
  ∃ w2,
    Box_get 0 Desk w' = (Ok (VObject 8), w') ∧
    objects w' !! 8 = Some [VObject 7] ∧
    Box_new 0 Desk w' = (Ok (VObject 9), w2) ∧
    objects w2 !! 9 = Some [VString "mock"].
Proof.
  intros w w'.
  destruct (Box_mock_not_retroactive 0 Printer Desk (VString "mock") w
              (VObject 8)) as (Hget & _ & _ & Hnew); [done|reflexivity|].
  eexists. split; [exact Hget|]. split; [reflexivity|].
  split.
  - etrans; [apply (Hnew (λ s, js_new plain_class [s]) eq_refl)|].
    reflexivity.
  - reflexivity.
Defined.

(** ** The builder when something throws, and when everything is cached *)

Lemma mapM_thrown_at (f : Constructor → M Value) ps1 p ps2 w vs w1 e w2 :
  resolved f ps1 w vs w1 →
  f p w1 = (Thrown e, w2) →
  mapM f (ps1 ++ p :: ps2) w = (Thrown e, w2).
Proof.
  intros Hr Hp. induction Hr as [|q ps w v w' vs w'' Hq _ IH]; simpl app.
  - by rewrite mapM_cons_run, Hp.
  - by rewrite mapM_cons_run, Hq, (IH Hp).
Qed.

Lemma resolved_get_cached this ps w vs w1 :
  Forall (λ p, Keeps entries_kept (Box_new this p)) ps →
  resolved (Box_get this) ps w vs w1 →
  Forall2 (λ p v, cache_of w1 this !! ident p = Some v) ps vs.
Proof.
  intros Hps Hr.
  assert (Forall (λ p, Keeps entries_kept (Box_get this p)) ps) as Hgets.
  { eapply Forall_impl; [exact Hps|]. intros p.
    apply keeps_entries_kept_Box_get. }
  destruct (resolved_lookup entries_kept _ _ _ _ _ Hgets Hr) as [_ Hdeps].
  apply Forall2_same_length_lookup.
  split; [symmetry; by eapply resolved_length|].
  intros i p v Hi Hv.
  destruct (Hdeps i p Hi) as (v' & wa & wb & Hv' & Hp & _ & Hb).
  assert (v' = v) as -> by congruence.
  apply Hb. by eapply Box_get_ok_cached.
Qed.

Lemma samples_keep_broken this :
  Forall (λ q, Keeps entries_kept (Box_new this q)) [Broken; Printer].
Proof.
  apply Forall_cons_2; [|apply Forall_cons_2; [|apply Forall_nil_2]].
  - eapply keeps_weaken; [apply objects_only_entries_kept|].
    apply keeps_js_new; [apply _ | apply alloc_objects_only |].
    intros o. apply keeps_throw, _.
  - eapply keeps_weaken;
      [apply objects_only_entries_kept | apply Printer_objects_only].
Qed.

(** X6.  A producer that throws while the builder resolves its arguments.
    If the producers before it resolve to [vs] and the next one throws [e]
    leaving the store [w2], the builder throws [e] and leaves [w2]: the
    producers after it are not resolved and the constructor of [T] is not
    run.  With the builder's [get], the dependencies resolved before the
    failure stay cached (the producers replacing no entry on their own):
    [Box.get] returns each of them afterwards. *)
Theorem builder_argument_error this T ps1 p ps2 w e :
  (∀ vs w1 w2,
     resolved (Box_new this) ps1 w vs w1 →
     Box_new this p w1 = (Thrown e, w2) →
     Construct_new (Box_for this T) (ps1 ++ p :: ps2) w = (Thrown e, w2)) ∧
  (∀ vs w1 w2,
     resolved (Box_get this) ps1 w vs w1 →
     Box_get this p w1 = (Thrown e, w2) →
     Construct_get (Box_for this T) (ps1 ++ p :: ps2) w = (Thrown e, w2) ∧
     (Forall (λ q, Keeps entries_kept (Box_new this q)) (p :: ps1) →
      ∀ i q v, ps1 !! i = Some q → vs !! i = Some v →
        Box_get this q w2 = (Ok v, w2))).
Proof.
  split.
  - intros vs w1 w2 Hr Hp. unfold Construct_new.
    by rewrite (bind_thrown _ _ _ _ _ (mapM_thrown_at _ _ _ ps2 _ _ _ _ _ Hr Hp)).
  - intros vs w1 w2 Hr Hp. split.
    + unfold Construct_get.
      by rewrite (bind_thrown _ _ _ _ _
                    (mapM_thrown_at _ _ _ ps2 _ _ _ _ _ Hr Hp)).
    + intros Hk i q v Hi Hv. apply Forall_cons in Hk as [Hkp Hk].
      pose proof (resolved_get_cached _ _ _ _ _ Hk Hr) as Hc.
      rewrite Forall2_same_length_lookup in Hc. destruct Hc as [_ Hc].
      apply Box_get_hit.
      pose proof (keeps_entries_kept_Box_get this p Hkp w1) as Hw.
      rewrite Hp in Hw. apply Hw. by eapply Hc.
Qed.

Lemma builder_argument_error_witness :
  ∃ w2,
    Construct_get (Box_for 0 plain_class) [Printer; Broken; Office] world0
    = (Thrown (VString "boom"), w2) ∧
    Box_get 0 Printer w2 = (Ok (VObject 7), w2) ∧
    cache_of w2 0 !! ident Office = None ∧
    objects w2 !! 2 = Some [VNumber 1].
Proof.
  destruct (builder_argument_error 0 plain_class [Printer] Broken [Office]
              world0 (VString "boom")) as [_ Hget].
  destruct (Hget [VObject 7] (Box_get 0 Printer world0).2
              (Box_get 0 Broken (Box_get 0 Printer world0).2).2)
    as [Hthrow Hcached].
  { econstructor; [reflexivity | constructor]. }
  { reflexivity. }
  eexists. split; [exact Hthrow|]. split; [|split; reflexivity].
  apply (Hcached (samples_keep_broken 0) 0 Printer (VObject 7));
    reflexivity.
Defined.

(** X7.  When every producer of the argument list already has a cache
    entry, by an earlier [Box.get] or by an override, the builder's [get]
    runs no creation logic at all: it is exactly [new T(...entries)], run
    in the store as it stands. *)
Theorem Construct_get_all_cached this T ps vs w :
  Forall2 (λ p v, cache_of w this !! ident p = Some v) ps vs →
  Construct_get (Box_for this T) ps w = js_new T vs w.
Proof.
  intros Hc. unfold Construct_get.
  pose proof (resolved_cached this ps vs w Hc) as Hr.
  apply mapM_resolved in Hr. by rewrite (bind_ok _ _ _ _ _ Hr).
Qed.

Lemma Construct_get_all_cached_witness :
  let w := (Box_mock 0 Printer (VString "p") world0).2 in
  let w' := (Box_mock 0 Broken (VString "b") w).2 in
  ∃ w2,
    Construct_get (Box_for 0 plain_class) [Broken; Printer] w'
    = (Ok (VObject 7), w2) ∧
    objects w2 !! 7 = Some [VString "b"; VString "p"] ∧
    objects w2 !! 2 = Some [VNumber 0].
Proof.
  intros w w'.
  pose proof (Construct_get_all_cached 0 plain_class [Broken; Printer]
                [VString "b"; VString "p"] w') as H.
  eexists. split.
  - rewrite H; [reflexivity|].
    apply Forall2_cons_2; [reflexivity|].
    apply Forall2_cons_2; [reflexivity | apply Forall2_nil_2].
  - split; reflexivity.
Defined.

(** X8.  The constructor of [T] throwing in the builder's [get].  If the
    producers resolve to [vs] and [new T(...vs)] then throws [e], the
    builder throws [e]; the dependencies resolved on the way stay cached
    ([T]'s constructor and the producers replacing no entry on their own),
    so that [Box.get] returns each of them and a second attempt is
    [new T(...vs)] again, with no creation logic run. *)
Theorem builder_constructor_error this T ps w vs w1 e w2 :
  Forall (λ p, Keeps entries_kept (Box_new this p)) ps →
  (∀ o, Keeps entries_kept (T o vs)) →
  resolved (Box_get this) ps w vs w1 →
  js_new T vs w1 = (Thrown e, w2) →
  Construct_get (Box_for this T) ps w = (Thrown e, w2) ∧
  (∀ i p v, ps !! i = Some p → vs !! i = Some v →
     Box_get this p w2 = (Ok v, w2)) ∧
  Construct_get (Box_for this T) ps w2 = js_new T vs w2.
Proof.
  intros Hps HT Hr Hnew.
  pose proof (resolved_get_cached _ _ _ _ _ Hps Hr) as Hc.
  assert (entries_kept w1 w2) as Hw.
  { pose proof (keeps_js_new entries_kept alloc_keeps_entries_kept T vs HT w1)
      as Hk.
    by rewrite Hnew in Hk. }
  assert (Forall2 (λ p v, cache_of w2 this !! ident p = Some v) ps vs) as Hc2.
  { eapply Forall2_impl; [exact Hc|]. intros p v Hv. by apply Hw. }
  split; [|split].
  - apply mapM_resolved in Hr. unfold Construct_get.
    by rewrite (bind_ok _ _ _ _ _ Hr).
  - intros i p v Hi Hv. apply Box_get_hit.
    rewrite Forall2_same_length_lookup in Hc2. destruct Hc2 as [_ Hc2].
    by eapply Hc2.
  - unfold Construct_get.
    pose proof (resolved_cached this ps vs w2 Hc2) as Hr2.
    apply mapM_resolved in Hr2. by rewrite (bind_ok _ _ _ _ _ Hr2).
Qed.

Lemma builder_constructor_error_witness :
  ∃ w2,
    Construct_get (Box_for 0 failing_class) [Printer] world0
    = (Thrown (VString "boom"), w2) ∧
    Box_get 0 Printer w2 = (Ok (VObject 7), w2) ∧
    objects w2 !! 2 = Some [VNumber 1].
Proof.
  destruct (builder_constructor_error 0 failing_class [Printer] world0
              [VObject 7] (Box_get 0 Printer world0).2 (VString "boom")
              (js_new failing_class [VObject 7]
                 (Box_get 0 Printer world0).2).2)
    as (Hthrow & Hcached & _).
  { apply Forall_cons_2; [|apply Forall_nil_2]. eapply keeps_weaken;
      [apply objects_only_entries_kept | apply Printer_objects_only]. }
  { intros o. apply keeps_throw, _. }
  { econstructor; [reflexivity | constructor]. }
  { reflexivity. }
  eexists. split; [exact Hthrow|]. split; [|reflexivity].
  apply (Hcached 0 Printer (VObject 7)); reflexivity.
Defined.

Lemma mapM_Box_get_replicate_cached this P u x n :
  cache_of u this !! ident P = Some x →
  mapM (Box_get this) (replicate n P) u = (Ok (replicate n x), u).
Proof.
  intros Hx. induction n as [|n IH]; [done|].
  cbn [replicate]. by rewrite mapM_cons_run, (Box_get_hit _ _ _ _ Hx), IH.
Qed.

(** X9.  The same producer at several positions.  With the builder's
    [get], when [P] is not cached and its creation logic returns [v], the
    logic runs once and every position receives [v].  With the builder's
    [new], the logic runs once per position, each run in the store the
    previous one left: if the second run returns [y], the call is
    [new T(v, y)] in the store after both runs, with [v] and [y] distinct
    when the logic returns an object it has just allocated; if the second
    run throws, so does the builder. *)
Theorem builder_repeated_producer this T P w v w1 n :
  cache_of w this !! ident P = None →
  Box_new this P w = (Ok v, w1) →
  Construct_get (Box_for this T) (replicate (S n) P) w
  = js_new T (replicate (S n) v) (set_cache w1 this (ident P) v) ∧
  (∀ y w2, Box_new this P w1 = (Ok y, w2) →
     Construct_new (Box_for this T) [P; P] w = js_new T [v; y] w2 ∧
     (creates_fresh (Box_new this P) → v ≠ y)) ∧
  (∀ e w2, Box_new this P w1 = (Thrown e, w2) →
     Construct_new (Box_for this T) [P; P] w = (Thrown e, w2)).
Proof.
  intros Hmiss Hnew. split; [|split].
  - unfold Construct_get. cbn [replicate].
    assert (mapM (Box_get this) (P :: replicate n P) w
            = (Ok (v :: replicate n v), set_cache w1 this (ident P) v)) as Hm.
    { rewrite mapM_cons_run, (Box_get_miss _ _ _ Hmiss), Hnew.
      by rewrite (mapM_Box_get_replicate_cached this P _ v n
                    (lookup_set_cache_eq _ _ _ _)). }
    by rewrite (bind_ok _ _ _ _ _ Hm).
  - intros y w2 Hy. split.
    + assert (mapM (Box_new this) [P; P] w = (Ok [v; y], w2)) as Hm
        by (by rewrite mapM_cons_run, Hnew, mapM_cons_run, Hy).
      unfold Construct_new.
      change (mapM (λ arg, Box_new (box (Box_for this T)) arg) [P; P])
        with (mapM (Box_new this) [P; P]).
      by rewrite (bind_ok _ _ _ _ _ Hm).
    + intros Hcf.
      destruct (Hcf _ _ _ Hnew) as (lx & -> & Hlx).
      destruct (Hcf _ _ _ Hy) as (ly & -> & Hly).
      intros [= ->]. lia.
  - intros e w2 Hy.
    assert (mapM (Box_new this) [P; P] w = (Thrown e, w2)) as Hm
      by (by rewrite mapM_cons_run, Hnew, mapM_cons_run, Hy).
    unfold Construct_new.
    change (mapM (λ arg, Box_new (box (Box_for this T)) arg) [P; P])
      with (mapM (Box_new this) [P; P]).
    by rewrite (bind_thrown _ _ _ _ _ Hm).
Qed.

Lemma builder_repeated_producer_witness :
  ∃ w2 w3,
    Construct_get (Box_for 0 plain_class) [Printer; Printer; Printer] world0
    = (Ok (VObject 8), w2) ∧
    objects w2 !! 8 = Some [VObject 7; VObject 7; VObject 7] ∧
    objects w2 !! 2 = Some [VNumber 1] ∧
    Construct_new (Box_for 0 plain_class) [Printer; Printer] world0
    = (Ok (VObject 9), w3) ∧
    objects w3 !! 9 = Some [VObject 7; VObject 8] ∧
    objects w3 !! 2 = Some [VNumber 2] ∧
    VObject 7 ≠ VObject 8.
Proof.
  destruct (builder_repeated_producer 0 plain_class Printer world0
              (VObject 7) (Box_new 0 Printer world0).2 2 eq_refl eq_refl)
    as (Hget & Hnew & _).
  destruct (Hnew (VObject 8)
              (Box_new 0 Printer (Box_new 0 Printer world0).2).2 eq_refl)
    as [Hrun Hne].
  eexists. eexists. split.
  { etrans; [exact Hget | reflexivity]. }
  split; [reflexivity|]. split; [reflexivity|]. split.
  { etrans; [exact Hrun | reflexivity]. }
  split; [reflexivity|]. split; [reflexivity|].
  apply Hne. apply js_new_creates_fresh.
  - apply counting_class_returns_own.
  - intros o. eapply keeps_weaken;
      [apply objects_only_alloc_le | apply counting_class_objects_only].
Defined.

(** X10.  What [Box.get] does to the cache, for a producer whose creation
    logic writes no cache: when it returns [v], the container's cache is
    the former cache with [v] under the producer's identity (the same
    cache, on a hit); when it throws, the cache is the former cache.  On
    a miss that returns, the cache has one entry more.  The caches of the
    other containers are as they were. *)
Theorem Box_get_cache_effect this P w :
  Keeps same_boxes (Box_new this P) →
  match Box_get this P w with
  | (Ok v, w') =>
      cache_of w' this = <[ident P := v]> (cache_of w this) ∧
      (cache_of w this !! ident P = None →
         size (cache_of w' this) = S (size (cache_of w this)))
  | (Thrown e, w') => cache_of w' this = cache_of w this
  end ∧
  (∀ b, b ≠ this → cache_of (Box_get this P w).2 b = cache_of w b).
Proof.
  intros Hk. specialize (Hk w).
  destruct (Box_get_cases this P w)
    as [(v & Hv & ->)|[(Hmiss & v & w1 & Hw1 & ->)|(_ & e & w1 & Hw1 & ->)]];
    rewrite ?Hw1 in Hk; simpl in *.
  - split; [|done]. split; [by rewrite insert_id|]. congruence.
  - pose proof (same_boxes_cache_of _ _ this Hk) as Hc.
    split; [split|].
    + by rewrite cache_of_set_cache, decide_True, Hc.
    + intros _. rewrite cache_of_set_cache, decide_True by done.
      rewrite <- Hc. by apply map_size_insert_None.
    + intros b Hb. rewrite cache_of_set_cache, decide_False by done.
      symmetry. by apply same_boxes_cache_of.
  - split; [symmetry; by apply same_boxes_cache_of|].
    intros b _. symmetry. by apply same_boxes_cache_of.
Qed.

Lemma Box_get_cache_effect_witness :
  cache_of (Box_get 0 Printer world0).2 0 = {[ 1 := VObject 7 ]} ∧
  cache_of (Box_get 0 Broken world0).2 0 = ∅.
Proof.
  pose proof (Box_get_cache_effect 0 Printer world0) as [H _].
  { eapply keeps_weaken;
      [apply objects_only_same_boxes | apply Printer_objects_only]. }
  split; reflexivity.
Defined.
